(** * The 2048 grid engine of [src/App.tsx]

    A shallow embedding of the pure functions at the bottom of [App.tsx]
    ([rotateMap], [moveRowLeft], [moveLeft], [moveMapIn2048Rule], [reached])
    and the properties the specification states about them.

    Tile values are integers ([Z]); a TypeScript [null] is [None]; numbers
    that are not integers are outside the embedding.  Arrays are lists, read
    with stdpp's lookup [l !! i], which is [None] exactly where a JavaScript
    read [l[i]] is [undefined].

    The numbers of the code are binary64 floats, and [Z] computes what they
    compute only where no product or sum is rounded.  On tiles that are
    positive integers this is the case for the engine: [cell * 2] is exact or
    above the ceiling on both sides, a merged tile is at most 128, and
    [gained] is a sum of merged tiles.  A sum with the score is exact as long
    as it stays within [2 ^ 53].  A theorem that states the value of a
    doubling or of a sum assumes such tiles, and such a score where the score
    is added to. *)

From Stdlib Require Import ZArith Lia Permutation.
From stdpp Require Import base tactics option list strings.

#[local] Arguments Z.mul : simpl never.
#[local] Arguments Z.add : simpl never.
#[local] Arguments Z.eqb : simpl never.
#[local] Arguments Z.leb : simpl never.

(** ** Data model (App.tsx, lines 4-32) *)

Abbreviation Tile := (option Z) (only parsing).
Abbreviation Row := (list (option Z)) (only parsing).
Abbreviation Grid := (list (list (option Z))) (only parsing).

Inductive Direction : Type := Up | Down | Left | Right.

Inductive Degree : Type := Deg0 | Deg90 | Deg180 | Deg270.

Definition TARGET_TILE : Z := 128.

Definition rotateMapDeg (direction : Direction) : Degree :=
  match direction with
  | Up => Deg90
  | Right => Deg180
  | Down => Deg270
  | Left => Deg0
  end.

Definition revertMapDeg (direction : Direction) : Degree :=
  match direction with
  | Up => Deg270
  | Right => Deg180
  | Down => Deg90
  | Left => Deg0
  end.

(** ** Outcomes of array reads

    [map[r].length] and [map[r][c]] throw a [TypeError] when [map[r]] is
    [undefined].  A read [row[c]] past the end of an existing row does not
    throw: it evaluates to [undefined], which is not a [Tile].  The embedding
    stops at such a read with [OutOfBounds], so that a run ending in [Ok] is a
    run in which every read of the grid hit an existing cell. *)

Inductive Fault : Type := TypeError | OutOfBounds.

Inductive outcome (A : Type) : Type :=
  | Ok (a : A)
  | Raise (e : Fault).

Arguments Ok {A} a.
Arguments Raise {A} e.

#[global] Instance outcome_ret : MRet outcome := fun A a => Ok a.

#[global] Instance outcome_bind : MBind outcome := fun A B f m =>
  match m with
  | Ok a => f a
  | Raise e => Raise e
  end.

(** [map[r]], used as the object of a further property read. *)
Definition row_at (map : Grid) (r : nat) : outcome Row :=
  match map !! r with
  | Some row => Ok row
  | None => Raise TypeError
  end.

(** [row[c]], used as a cell of the grid under construction. *)
Definition cell_at (row : Row) (c : nat) : outcome Tile :=
  match row !! c with
  | Some v => Ok v
  | None => Raise OutOfBounds
  end.

(** [map[r][c]] *)
Definition read (map : Grid) (r c : nat) : outcome Tile :=
  row ← row_at map r; cell_at row c.

(** [Array.from({ length: n }, (_, i) => f i)]: the callback runs for
    [i = 0 .. n-1] in order and a failing call aborts the construction. *)
Definition array_from {A : Type} (n : nat) (f : nat → outcome A) : outcome (list A) :=
  mapM f (seq 0 n).

(** ** Rotation (App.tsx, lines 171-209) *)

Definition cloneMap (map : Grid) : Grid :=
  (fun row : Row => row) <$> map.

Definition rotateMap (map : Grid) (deg : Degree) : outcome Grid :=
  let R := length map in
  row0 ← row_at map 0;
  let C := length row0 in
  match deg with
  | Deg0 => Ok (cloneMap map)
  | Deg90 =>
      array_from C (fun c => array_from R (fun r => read map r (C - c - 1)))
  | Deg180 =>
      array_from R (fun r => array_from C (fun c => read map (R - r - 1) (C - c - 1)))
  | Deg270 =>
      array_from C (fun c => array_from R (fun r => read map (R - r - 1) c))
  end.

(** ** One row (App.tsx, lines 221-255) *)

Record Acc : Type := mkAcc {
  acc_last : option Z;
  acc_result : list (option Z);
  acc_gained : Z
}.

Record RowMove : Type := mkRowMove {
  row_result : list (option Z);
  row_isMoved : bool;
  row_gained : Z
}.

(** [a === b] on tiles. *)
Definition tile_eqb (a b : Tile) : bool :=
  match a, b with
  | None, None => true
  | Some x, Some y => (x =? y)%Z
  | _, _ => false
  end.

(** The callback of [row.reduce].  [v * 2] and the sum with [gained] are
    taken in [Z]: they are the code's values for tiles that are positive
    integers, where a doubling that is kept is at most [TARGET_TILE]. *)
Definition reducer (acc : Acc) (cell : Tile) : Acc :=
  match cell with
  | None => acc
  | Some v =>
      match acc_last acc with
      | None => mkAcc cell (acc_result acc) (acc_gained acc)
      | Some _ =>
          if tile_eqb (acc_last acc) cell && (v * 2 <=? TARGET_TILE)%Z
          then mkAcc None (acc_result acc ++ [Some (v * 2)%Z]) (acc_gained acc + v * 2)%Z
          else mkAcc cell (acc_result acc ++ [acc_last acc]) (acc_gained acc)
      end
  end.

Definition reducer_init : Acc := mkAcc None [] 0%Z.

(** [const arr = [...red.result, red.last]] *)
Definition moveRowLeft_arr (row : Row) : Row :=
  let red := foldl reducer reducer_init row in
  acc_result red ++ [acc_last red].

(** [arr[i] ?? null]: a read past the end of [arr] is [undefined], which
    [??] turns into [null]. *)
Definition nullish (x : option Tile) : Tile :=
  match x with
  | Some v => v
  | None => None
  end.

(** [row.some((v, i) => f v i)], with the index counted from [i]. *)
Fixpoint some_from {A : Type} (f : A → nat → bool) (i : nat) (l : list A) : bool :=
  match l with
  | [] => false
  | v :: l' => f v i || some_from f (S i) l'
  end.

(** [v !== out[i]]; [out[i]] is [undefined] past the end of [out]. *)
Definition differs (out : Row) (v : Tile) (i : nat) : bool :=
  match out !! i with
  | Some w => negb (tile_eqb v w)
  | None => true
  end.

Definition moveRowLeft (row : Row) : RowMove :=
  let red := foldl reducer reducer_init row in
  let arr := acc_result red ++ [acc_last red] in
  let out := (fun i => nullish (arr !! i)) <$> seq 0 (length row) in
  mkRowMove out (some_from (differs out) 0 row) (acc_gained red).

(** ** The whole grid (App.tsx, lines 175-183 and 211-219) *)

Record Move : Type := mkMove {
  result : list (list (option Z));
  isMoved : bool;
  gained : Z
}.

(** The sum of the rows' [gained] is taken in [Z], as in [reducer]. *)
Definition moveLeft (map : Grid) : Move :=
  let rows := moveRowLeft <$> map in
  let gained := foldl (fun s x => (s + row_gained x)%Z) 0%Z rows in
  mkMove (row_result <$> rows) (existsb row_isMoved rows) gained.

Definition moveMapIn2048Rule (map : Grid) (direction : Direction) : outcome Move :=
  rotated ← rotateMap map (rotateMapDeg direction);
  let m := moveLeft rotated in
  back ← rotateMap (result m) (revertMapDeg direction);
  Ok (mkMove back (isMoved m) (gained m)).

(** ** The terminal predicate (App.tsx, lines 159-161) *)

Definition reached (map : Grid) (t : Z) : bool :=
  existsb (existsb (fun v : Tile =>
    match v with
    | Some x => (x >=? t)%Z
    | None => false
    end)) map.

(** * Auxiliary definitions

    Total, pure counterparts of the functions above, used to state and prove
    their properties. *)

(** [tab n f] is the array [f 0, ..., f (n-1)]. *)
Definition tab {A : Type} (n : nat) (f : nat → A) : list A := f <$> seq 0 n.

(** The cell at row [r], column [c]; [None] outside the grid. *)
Definition get (map : Grid) (r c : nat) : Tile :=
  match map !! r with
  | Some row => nullish (row !! c)
  | None => None
  end.

(** [R] rows, each of [C] cells. *)
Definition rectangular (map : Grid) (R C : nat) : Prop :=
  length map = R ∧ Forall (fun row => length row = C) map.

(** What [rotateMap] computes on a grid of [R] rows and [C] columns. *)
Definition rot (deg : Degree) (R C : nat) (map : Grid) : Grid :=
  match deg with
  | Deg0 => map
  | Deg90 => tab C (fun c => tab R (fun r => get map r (C - c - 1)))
  | Deg180 => tab R (fun r => tab C (fun c => get map (R - r - 1) (C - c - 1)))
  | Deg270 => tab C (fun c => tab R (fun r => get map (R - r - 1) c))
  end.

Definition rot_rows (deg : Degree) (R C : nat) : nat :=
  match deg with
  | Deg0 | Deg180 => R
  | Deg90 | Deg270 => C
  end.

Definition rot_cols (deg : Degree) (R C : nat) : nat :=
  match deg with
  | Deg0 | Deg180 => C
  | Deg90 | Deg270 => R
  end.

Definition inverse_deg (deg : Degree) : Degree :=
  match deg with
  | Deg0 => Deg0
  | Deg90 => Deg270
  | Deg180 => Deg180
  | Deg270 => Deg90
  end.

(** ** The row step as the specification words it (section 4.2)

    The scan runs over the non-empty cells of the row with a pending slot.
    With the slot empty the tile goes into the slot; a tile equal to the slot
    whose double does not exceed the ceiling is emitted doubled and the slot is
    cleared; otherwise the slot is emitted and the tile takes its place.  At the
    end the slot is emitted and the output is padded with empty cells. *)

(** The non-empty cells of a row, in order. *)
Definition tiles (row : Row) : list Z := omap id row.

(** An output tile: an input tile passed on, or two tiles of value [v]
    merged into one. *)
Inductive Emitted : Type :=
  | Kept (v : Z)
  | Merged (v : Z).

Definition value (e : Emitted) : Z :=
  match e with
  | Kept v => v
  | Merged v => 2 * v
  end.

(** What an output tile adds to [gained]. *)
Definition gain (e : Emitted) : Z :=
  match e with
  | Kept _ => 0
  | Merged v => 2 * v
  end.

Definition is_merged (e : Emitted) : bool :=
  match e with
  | Kept _ => false
  | Merged _ => true
  end.

Fixpoint spec_scan (ceiling : Z) (pending : option Z) (l : list Z) : list Emitted :=
  match l with
  | [] =>
      match pending with
      | Some p => [Kept p]
      | None => []
      end
  | x :: l' =>
      match pending with
      | None => spec_scan ceiling (Some x) l'
      | Some p =>
          if (p =? x)%Z && (2 * x <=? ceiling)%Z
          then Merged x :: spec_scan ceiling None l'
          else Kept p :: spec_scan ceiling (Some x) l'
      end
  end.

(** Step 4: pad on the right with empty cells up to length [n]. *)
Definition pad (n : nat) (l : list Z) : Row :=
  (Some <$> l) ++ replicate (n - length l) None.

Definition sumZ (l : list Z) : Z := foldr Z.add 0%Z l.

(** The pending slot as a list of zero or one tile. *)
Definition slot (p : option Z) : list Z :=
  match p with
  | Some v => [v]
  | None => []
  end.

(** The row step of the specification: scan, then pad. *)
Definition spec_row (ceiling : Z) (row : Row) : Row :=
  pad (length row) (value <$> spec_scan ceiling None (tiles row)).

(** The output tiles of all rows of a grid that is moved left. *)
Definition emitted (ceiling : Z) (map : Grid) : list Emitted :=
  concat ((fun row => spec_scan ceiling None (tiles row)) <$> map).

(** The values of the tiles created by a merge. *)
Definition merged_values (es : list Emitted) : list Z :=
  value <$> filter (fun e => is_merged e = true) es.

(** The non-empty cells of a grid, row by row. *)
Definition grid_tiles (map : Grid) : list Z := tiles (concat map).

(** What [moveMapIn2048Rule] computes on a grid of [R] rows and [C] columns. *)
Definition move_rect (direction : Direction) (R C : nat) (map : Grid) : Move :=
  let fwd := rotateMapDeg direction in
  let m := moveLeft (rot fwd R C map) in
  mkMove (rot (revertMapDeg direction) (rot_rows fwd R C) (rot_cols fwd R C) (result m))
         (isMoved m) (gained m).

(** A cell that holds a tile. *)
Definition filled (map : Grid) (r c : nat) : Prop := get map r c ≠ None.

(** No tile has an empty cell between it and the wall of the direction. *)
Definition compacted (direction : Direction) (R C : nat) (map : Grid) : Prop :=
  match direction with
  | Left => ∀ r c c', r < R → c' < c → c < C → filled map r c → filled map r c'
  | Right => ∀ r c c', r < R → c < c' → c' < C → filled map r c → filled map r c'
  | Up => ∀ r r' c, c < C → r' < r → r < R → filled map r c → filled map r' c
  | Down => ∀ r r' c, c < C → r < r' → r' < R → filled map r c → filled map r' c
  end.

(** * The game around the engine (App.tsx, lines 9-18, 34-87 and 137-169)

    [Math.random] is an input of the embedding: [pick n] stands for the value
    of [Math.floor(Math.random() * n)] at the one place that computes it, and
    [small] for the test [Math.random() < 0.9].  In-place updates of a grid
    return the new grid.  The writes to [localStorage] ([save]) and the React
    calls are effects outside the embedding; they do not change the state that
    the functions below return. *)

Record GameState : Type := mkGameState {
  gs_map : list (list (option Z));
  gs_score : Z;
  gs_finished : bool
}.

Definition ROWS : nat := 4.

Definition COLS : nat := 4.

(** [Array.from({ length: r }, () => Array.from({ length: c }, () => null))] *)
Definition emptyMap (r c : nat) : Grid :=
  tab r (fun _ => tab c (fun _ => None)).

(** [map[i][j] === null], for an existing row [map[i]]: a cell past the end
    of the row reads as [undefined], which is not [null]. *)
Definition null_at (row : Row) (j : nat) : bool :=
  match row !! j with
  | Some None => true
  | _ => false
  end.

(** [map[0].length], read only while the outer loop runs, that is, on a grid
    with a first row. *)
Definition first_row_length (map : Grid) : nat :=
  match map !! 0 with
  | Some row0 => length row0
  | None => 0
  end.

(** The two nested loops of [empties]: [i] over the rows, [j] below the
    length of the first row. *)
Definition empties (map : Grid) : list (nat * nat) :=
  flat_map (fun i =>
    match map !! i with
    | Some row =>
        flat_map (fun j => if null_at row j then [(i, j)] else [])
                 (seq 0 (first_row_length map))
    | None => []
    end) (seq 0 (length map)).

(** [map[i][j] = v] on an existing cell. *)
Definition set_cell (map : Grid) (i j : nat) (v : Z) : Grid :=
  match map !! i with
  | Some row => <[i := <[j := Some v]> row]> map
  | None => map
  end.

(** [spawn]: the grid after the call and the value returned.  Destructuring
    [e[k]] throws when [k] is no index of [e]. *)
Definition spawn (map : Grid) (pick : nat → nat) (small : bool) : outcome (Grid * bool) :=
  let e := empties map in
  match e with
  | [] => Ok (map, false)
  | _ :: _ =>
      match e !! pick (length e) with
      | Some (i, j) => Ok (set_cell map i j (if small then 2 else 4)%Z, true)
      | None => Raise TypeError
      end
  end.

Definition keyToDirection (key : string) : option Direction :=
  if String.eqb key "ArrowUp" then Some Up
  else if String.eqb key "ArrowRight" then Some Right
  else if String.eqb key "ArrowDown" then Some Down
  else if String.eqb key "ArrowLeft" then Some Left
  else None.

(** The state update of the key handler (lines 48-73).  [prev.score + gained]
    is taken in [Z]: it is the code's value while the score stays within
    [2 ^ 53]. *)
Definition handleKeyDown (prev : GameState) (key : string)
    (pick : nat → nat) (small : bool) : outcome GameState :=
  if gs_finished prev then Ok prev
  else
    match keyToDirection key with
    | None => Ok prev
    | Some dir =>
        m ← moveMapIn2048Rule (gs_map prev) dir;
        if negb (isMoved m) then Ok prev
        else
          let newMap := (fun row : Row => row) <$> result m in
          spawned ← spawn newMap pick small;
          let reachedTarget := reached spawned.1 TARGET_TILE in
          Ok (mkGameState spawned.1 (gs_score prev + gained m)%Z reachedTarget)
    end.

(** The state of a new game (lines 39-42 and 81-84): an empty grid and two
    spawns. *)
Definition newGame (pick1 : nat → nat) (small1 : bool)
    (pick2 : nat → nat) (small2 : bool) : outcome GameState :=
  let map := emptyMap ROWS COLS in
  first ← spawn map pick1 small1;
  second ← spawn first.1 pick2 small2;
  Ok (mkGameState second.1 0%Z false).

(** ** Auxiliary definitions for the game *)

(** The line [k] of a grid of [R] rows and [C] columns, read from the wall
    that the direction moves towards. *)
Definition line (direction : Direction) (R C : nat) (map : Grid) (k : nat) : Row :=
  match direction with
  | Left => tab C (fun c => get map k c)
  | Right => tab C (fun c => get map k (C - c - 1))
  | Up => tab R (fun r => get map r k)
  | Down => tab R (fun r => get map (R - r - 1) k)
  end.

(** The number of lines of a direction. *)
Definition lines (direction : Direction) (R C : nat) : nat :=
  match direction with
  | Left | Right => R
  | Up | Down => C
  end.

Definition add_deg (a b : Degree) : Degree :=
  match a, b with
  | Deg0, d | d, Deg0 => d
  | Deg90, Deg90 => Deg180
  | Deg90, Deg180 | Deg180, Deg90 => Deg270
  | Deg90, Deg270 | Deg270, Deg90 | Deg180, Deg180 => Deg0
  | Deg180, Deg270 | Deg270, Deg180 => Deg90
  | Deg270, Deg270 => Deg180
  end.

(** A tile of the game: a power of two from 2 to 128. *)
Definition tile_ok (v : Z) : Prop := ∃ k : nat, 1 ≤ k ≤ 7 ∧ v = (2 ^ Z.of_nat k)%Z.

(** What every state of a game satisfies. *)
Definition game_ok (st : GameState) : Prop :=
  rectangular (gs_map st) ROWS COLS ∧
  Forall tile_ok (grid_tiles (gs_map st)) ∧
  (0 ≤ gs_score st)%Z ∧
  gs_finished st = reached (gs_map st) TARGET_TILE.

(** * Arrays built by [Array.from] *)

Lemma outcome_bind_ok {A B : Type} (f : A → outcome B) (a : A) : Ok a ≫= f = f a.
Proof. done. Qed.

Section ArrayFrom.
Context {A : Type}.

Lemma mapM_seq_ok (f : nat → outcome A) (g : nat → A) (n s : nat) :
  (∀ i, s ≤ i < s + n → f i = Ok (g i)) →
  mapM f (seq s n) = Ok (g <$> seq s n).
Proof.
  revert s. induction n as [|n IH]; intros s Hf; simpl; [done|].
  rewrite Hf by lia. simpl.
  rewrite IH by (intros i Hi; apply Hf; lia). done.
Qed.

Lemma array_from_ok (f : nat → outcome A) (g : nat → A) (n : nat) :
  (∀ i, i < n → f i = Ok (g i)) →
  array_from n f = Ok (tab n g).
Proof. intros Hf. apply mapM_seq_ok. intros i Hi. apply Hf. lia. Qed.

Lemma length_tab (n : nat) (f : nat → A) : length (tab n f) = n.
Proof. unfold tab. by rewrite length_fmap, length_seq. Qed.

Lemma lookup_tab (n : nat) (f : nat → A) (i : nat) :
  i < n → tab n f !! i = Some (f i).
Proof.
  intros Hi. unfold tab. rewrite list_lookup_fmap, lookup_seq_lt by done. done.
Qed.

Lemma lookup_tab_ge (n : nat) (f : nat → A) (i : nat) :
  n ≤ i → tab n f !! i = None.
Proof. intros Hi. apply lookup_ge_None. by rewrite length_tab. Qed.

Lemma tab_ext (n : nat) (f g : nat → A) :
  (∀ i, i < n → f i = g i) → tab n f = tab n g.
Proof.
  intros Hfg. unfold tab. apply list_fmap_ext.
  intros i x Hx. apply lookup_seq in Hx as [-> Hx]. by apply Hfg.
Qed.

Lemma tab_S (n : nat) (f : nat → A) : tab (S n) f = tab n f ++ [f n].
Proof. unfold tab. by rewrite seq_S, fmap_app. Qed.

Lemma tab_lookup (l : list A) (f : nat → A) :
  (∀ i x, l !! i = Some x → f i = x) → tab (length l) f = l.
Proof.
  intros Hf. apply list_eq. intros i. destruct (decide (i < length l)) as [Hi|Hi].
  - rewrite lookup_tab by done.
    destruct (lookup_lt_is_Some_2 l i Hi) as [x Hx]. rewrite Hx. f_equal. eauto.
  - rewrite lookup_tab_ge, lookup_ge_None_2 by lia. done.
Qed.

Lemma tab_rev (n : nat) (f : nat → A) :
  tab n (fun i => f (n - i - 1)) = reverse (tab n f).
Proof.
  apply list_eq. intros i. destruct (decide (i < n)) as [Hi|Hi].
  - rewrite lookup_tab, reverse_lookup by (rewrite ?length_tab; done).
    rewrite length_tab, lookup_tab by lia. do 2 f_equal. lia.
  - rewrite lookup_tab_ge, lookup_ge_None_2 by (rewrite ?length_reverse, ?length_tab; lia).
    done.
Qed.

End ArrayFrom.

(** * Flattening a table of rows *)

Section ConcatTab.
Context {A : Type}.

Lemma concat_tab_perm (n : nat) (a b : nat → list A) :
  (∀ i, i < n → a i ≡ₚ b i) → concat (tab n a) ≡ₚ concat (tab n b).
Proof.
  induction n as [|n IH]; intros Hab; [done|].
  rewrite !tab_S, !concat_app. simpl. rewrite !app_nil_r.
  rewrite IH by (intros; apply Hab; lia). by rewrite Hab by lia.
Qed.

Lemma concat_tab_app (n : nat) (a b : nat → list A) :
  concat (tab n (fun i => a i ++ b i)) ≡ₚ concat (tab n a) ++ concat (tab n b).
Proof.
  induction n as [|n IH]; [done|].
  rewrite !tab_S, !concat_app. simpl. rewrite !app_nil_r, IH.
  rewrite <-!(assoc_L (++)). f_equiv. rewrite !(assoc_L (++)). f_equiv.
  apply Permutation_app_comm.
Qed.

Lemma concat_tab_singleton (n : nat) (f : nat → A) :
  concat (tab n (fun i => [f i])) = tab n f.
Proof.
  induction n as [|n IH]; [done|].
  rewrite !tab_S, concat_app, IH. done.
Qed.

Lemma concat_tab_swap (R C : nat) (f : nat → nat → A) :
  concat (tab C (fun c => tab R (fun r => f r c))) ≡ₚ
  concat (tab R (fun r => tab C (fun c => f r c))).
Proof.
  induction C as [|C IH].
  - induction R as [|R IHR]; [done|].
    rewrite (tab_S R), concat_app, <-IHR. done.
  - rewrite tab_S, concat_app. simpl. rewrite app_nil_r, IH.
    rewrite <-(concat_tab_singleton R (fun r => f r C)), <-concat_tab_app.
    apply concat_tab_perm. intros r _. by rewrite tab_S.
Qed.

Lemma concat_reverse_perm (l : list (list A)) : concat (reverse l) ≡ₚ concat l.
Proof.
  induction l as [|x l IH]; [done|].
  rewrite reverse_cons, concat_app. simpl. rewrite app_nil_r, IH.
  apply Permutation_app_comm.
Qed.
End ConcatTab.

(** * Rotation of a rectangular grid *)

Section Rotation.
Implicit Types (map : list (list (option Z))) (R C r c : nat) (deg : Degree).

Lemma rectangular_lookup map R C r row :
  rectangular map R C → map !! r = Some row → length row = C.
Proof. intros [_ HC] Hr. by apply (Forall_lookup_1 _ _ _ _ HC Hr). Qed.

Lemma get_lookup map R C r c :
  rectangular map R C → r < R → c < C →
  ∃ row, map !! r = Some row ∧ row !! c = Some (get map r c).
Proof.
  intros Hrect Hr Hc. pose proof Hrect as [HR _].
  destruct (lookup_lt_is_Some_2 map r) as [row Hrow]; [lia|].
  pose proof (rectangular_lookup _ _ _ _ _ Hrect Hrow) as Hlen.
  destruct (lookup_lt_is_Some_2 row c) as [v Hv]; [lia|].
  exists row. split; [done|]. unfold get. by rewrite Hrow, Hv.
Qed.

Lemma read_get map R C r c :
  rectangular map R C → r < R → c < C → read map r c = Ok (get map r c).
Proof.
  intros Hrect Hr Hc.
  destruct (get_lookup _ _ _ _ _ Hrect Hr Hc) as (row & Hrow & Hv).
  unfold read, row_at, cell_at. rewrite Hrow. simpl. by rewrite Hv.
Qed.

Lemma get_tab R C (f : nat → nat → option Z) r c :
  r < R → c < C → get (tab R (fun r => tab C (f r))) r c = f r c.
Proof.
  intros Hr Hc. unfold get. rewrite lookup_tab by done. by rewrite lookup_tab.
Qed.

Lemma grid_tab map R C :
  rectangular map R C → tab R (fun r => tab C (fun c => get map r c)) = map.
Proof.
  intros Hrect. pose proof Hrect as [<- _]. apply tab_lookup.
  intros r row Hrow.
  rewrite <-(rectangular_lookup _ _ _ _ _ Hrect Hrow).
  apply tab_lookup. intros c v Hv. unfold get. by rewrite Hrow, Hv.
Qed.

Lemma rectangular_tab R C (f : nat → nat → option Z) :
  rectangular (tab R (fun r => tab C (f r))) R C.
Proof.
  split; [apply length_tab|]. apply Forall_lookup_2. intros r row Hrow.
  destruct (decide (r < R)) as [Hr|Hr].
  - rewrite lookup_tab in Hrow by done. injection Hrow as <-. apply length_tab.
  - rewrite lookup_tab_ge in Hrow by lia. done.
Qed.

Lemma rot_rectangular deg map R C :
  rectangular map R C →
  rectangular (rot deg R C map) (rot_rows deg R C) (rot_cols deg R C).
Proof. intros Hrect. destruct deg; simpl; [done|apply rectangular_tab..]. Qed.

Lemma rotateMap_nil deg : rotateMap [] deg = Raise TypeError.
Proof. done. Qed.

Lemma rotateMap_rect map R C deg :
  rectangular map R C → 0 < R → rotateMap map deg = Ok (rot deg R C map).
Proof.
  intros Hrect HR. pose proof Hrect as [Hlen _].
  destruct (lookup_lt_is_Some_2 map 0) as [row0 Hrow0]; [lia|].
  pose proof (rectangular_lookup _ _ _ _ _ Hrect Hrow0) as HC.
  unfold rotateMap, row_at. rewrite Hrow0. simpl. rewrite HC, Hlen.
  destruct deg; simpl.
  - unfold cloneMap. by rewrite list_fmap_id.
  - apply array_from_ok. intros c Hc. apply array_from_ok. intros r Hr.
    apply (read_get _ R C); [done|lia..].
  - apply array_from_ok. intros r Hr. apply array_from_ok. intros c Hc.
    apply (read_get _ R C); [done|lia..].
  - apply array_from_ok. intros c Hc. apply array_from_ok. intros r Hr.
    apply (read_get _ R C); [done|lia..].
Qed.

Lemma rot_inverse deg map R C :
  rectangular map R C →
  rot (inverse_deg deg) (rot_rows deg R C) (rot_cols deg R C) (rot deg R C map) = map.
Proof.
  intros Hrect. rewrite <-(grid_tab map R C Hrect) at 2.
  destruct deg; simpl.
  - symmetry. by apply grid_tab.
  - apply tab_ext. intros r Hr. apply tab_ext. intros c Hc.
    rewrite get_tab by lia. f_equal. lia.
  - apply tab_ext. intros r Hr. apply tab_ext. intros c Hc.
    rewrite get_tab by lia. f_equal; lia.
  - apply tab_ext. intros r Hr. apply tab_ext. intros c Hc.
    rewrite get_tab by lia. f_equal. lia.
Qed.

Lemma rot_perm deg map R C :
  rectangular map R C → concat (rot deg R C map) ≡ₚ concat map.
Proof.
  intros Hrect. rewrite <-(grid_tab map R C Hrect) at 2.
  destruct deg; simpl.
  - by rewrite (grid_tab map R C Hrect).
  - rewrite (tab_rev C (fun c => tab R (fun r => get map r c))).
    rewrite concat_reverse_perm. apply concat_tab_swap.
  - rewrite (tab_rev R (fun r => tab C (fun c => get map r (C - c - 1)))).
    rewrite concat_reverse_perm. apply concat_tab_perm. intros r _.
    rewrite (tab_rev C (fun c => get map r c)). apply reverse_Permutation.
  - etrans; [|apply (concat_tab_swap R C (fun r c => get map r c))].
    apply concat_tab_perm. intros c _.
    rewrite (tab_rev R (fun r => get map r c)). apply reverse_Permutation.
Qed.
End Rotation.

(** * The scan of the specification *)

Section SpecScan.
Variable t : Z.
Implicit Types (p : option Z) (l : list Z) (e : Emitted).

Lemma spec_scan_length p l :
  length (spec_scan t p l) ≤ length (slot p) + length l.
Proof.
  revert p. induction l as [|x l IH]; intros p; csimpl.
  - destruct p; simpl; lia.
  - destruct p as [q|]; csimpl.
    + destruct ((q =? x)%Z && (2 * x <=? t)%Z); csimpl.
      * specialize (IH None). simpl in IH. lia.
      * specialize (IH (Some x)). simpl in IH. lia.
    + specialize (IH (Some x)). simpl in IH. lia.
Qed.

Lemma spec_scan_gain_even p l :
  ∃ k, sumZ (gain <$> spec_scan t p l) = (2 * k)%Z.
Proof.
  revert p. induction l as [|x l IH]; intros p; csimpl.
  - exists 0%Z. by destruct p.
  - destruct p as [q|]; [|apply IH].
    destruct ((q =? x)%Z && (2 * x <=? t)%Z); csimpl.
    + destruct (IH None) as [k Hk]. exists (x + k)%Z. unfold sumZ in *. csimpl. lia.
    + destruct (IH (Some x)) as [k Hk]. exists k. unfold sumZ in *. csimpl. lia.
Qed.

Lemma spec_scan_gain_nonneg p l :
  Forall (fun x => 0 ≤ x)%Z l → (0 ≤ sumZ (gain <$> spec_scan t p l))%Z.
Proof.
  intros Hl. revert p. induction Hl as [|x l Hx Hl IH]; intros p; csimpl.
  - by destruct p.
  - destruct p as [q|]; [|apply IH].
    destruct ((q =? x)%Z && (2 * x <=? t)%Z); csimpl.
    + specialize (IH None). unfold sumZ in *. csimpl. lia.
    + specialize (IH (Some x)). unfold sumZ in *. csimpl. lia.
Qed.

Lemma spec_scan_ceiling p l :
  Forall (fun x => x ≤ t)%Z (slot p ++ l) →
  Forall (fun x => x ≤ t)%Z (value <$> spec_scan t p l).
Proof.
  revert p. induction l as [|x l IH]; intros p Hl; csimpl.
  - destruct p; simpl in *; [|done]. by rewrite ?app_nil_r in Hl.
  - destruct p as [q|]; csimpl in *.
    + apply Forall_cons in Hl as [Hq Hl]. apply Forall_cons in Hl as [Hx Hl].
      destruct ((q =? x)%Z && (2 * x <=? t)%Z) eqn:Hm; csimpl.
      * apply andb_true_iff in Hm as [_ Hm]. apply Z.leb_le in Hm.
        apply Forall_cons. split; [lia|]. by apply (IH None).
      * apply Forall_cons. split; [done|]. apply (IH (Some x)). by apply Forall_cons.
    + by apply (IH (Some x)).
Qed.

(** A scan without a merge passes every tile on, in order. *)
Lemma spec_scan_no_merge p l :
  Forall (fun e => is_merged e = false) (spec_scan t p l) →
  value <$> spec_scan t p l = slot p ++ l.
Proof.
  revert p. induction l as [|x l IH]; intros p Hm; csimpl in *.
  - by destruct p.
  - destruct p as [q|]; csimpl.
    + destruct ((q =? x)%Z && (2 * x <=? t)%Z); csimpl.
      * apply Forall_cons in Hm as [Hm _]. done.
      * apply Forall_cons in Hm as [_ Hm]. f_equal. by apply (IH (Some x)).
    + by apply (IH (Some x)).
Qed.

(** With positive tiles a zero gain means that nothing merged. *)
Lemma spec_scan_gain_zero p l :
  Forall (fun x => 0 < x)%Z l →
  sumZ (gain <$> spec_scan t p l) = 0%Z →
  Forall (fun e => is_merged e = false) (spec_scan t p l).
Proof.
  intros Hl. revert p. induction Hl as [|x l Hx Hl IH]; intros p Hg; csimpl in *.
  - destruct p; repeat constructor.
  - assert (Hpos : ∀ q, (0 ≤ sumZ (gain <$> spec_scan t q l))%Z).
    { intros q. apply spec_scan_gain_nonneg. eapply Forall_impl; [done|].
      simpl. lia. }
    destruct p as [q|]; simpl; [|by apply IH].
    destruct ((q =? x)%Z && (2 * x <=? t)%Z); csimpl in *.
    + specialize (Hpos None). unfold sumZ in *. csimpl in *. lia.
    + constructor; [done|]. apply IH. unfold sumZ in *. csimpl in *. lia.
Qed.

(** Every merge doubles a tile and stays under the ceiling. *)
Lemma spec_scan_merged p l v :
  Merged v ∈ spec_scan t p l → (2 * v ≤ t)%Z ∧ v ∈ l.
Proof.
  revert p. induction l as [|x l IH]; intros p Hin; csimpl in *.
  - destruct p.
    + by apply list_elem_of_singleton in Hin.
    + by apply elem_of_nil in Hin.
  - assert (Hr : ∀ q, Merged v ∈ spec_scan t q l → (2 * v ≤ t)%Z ∧ v ∈ x :: l).
    { intros q Hq. destruct (IH q Hq). split; [done|]. by right. }
    destruct p as [q|]; csimpl in *; [|by eapply Hr].
    destruct ((q =? x)%Z && (2 * x <=? t)%Z) eqn:Hm.
    + apply elem_of_cons in Hin as [[= ->]|Hin]; [|by eapply Hr].
      apply andb_true_iff in Hm as [_ Hm]. apply Z.leb_le in Hm.
      split; [lia|by left].
    + apply elem_of_cons in Hin as [?|Hin]; [done|by eapply Hr].
Qed.

(** A tile whose double exceeds the ceiling is never merged away. *)
Lemma spec_scan_count p l v :
  (t < 2 * v)%Z →
  count_occ Z.eq_dec (slot p ++ l) v ≤ count_occ Z.eq_dec (value <$> spec_scan t p l) v.
Proof.
  intros Hv. revert p. induction l as [|x l IH]; intros p; csimpl.
  - destruct p; simpl; [|done]. by rewrite ?app_nil_r.
  - destruct p as [q|]; csimpl.
    + destruct ((q =? x)%Z && (2 * x <=? t)%Z) eqn:Hm; csimpl.
      * apply andb_true_iff in Hm as [Hq Hm].
        apply Z.eqb_eq in Hq as ->. apply Z.leb_le in Hm.
        specialize (IH None). simpl in IH.
        repeat destruct (Z.eq_dec _ _); lia.
      * specialize (IH (Some x)). simpl in IH.
        repeat destruct (Z.eq_dec _ _); lia.
    + apply (IH (Some x)).
Qed.
End SpecScan.

(** * The row step of the code against the scan of the specification *)

Section RowStep.
Implicit Types (row out : list (option Z)) (acc : Acc) (l : list Z).

Lemma tile_eqb_eq (a b : option Z) : tile_eqb a b = true ↔ a = b.
Proof.
  destruct a as [x|], b as [y|]; simpl; try (split; done).
  rewrite Z.eqb_eq. split; congruence.
Qed.

Lemma tiles_length row : length (tiles row) ≤ length row.
Proof.
  unfold tiles. induction row as [|[v|] row IH]; csimpl; lia.
Qed.

Lemma tiles_pad n l : tiles (pad n l) = l.
Proof.
  unfold tiles, pad. rewrite omap_app.
  assert (omap id (replicate (n - length l) (@None Z)) = []) as ->.
  { induction (n - length l) as [|k IH]; [done|]. csimpl. done. }
  rewrite app_nil_r. induction l as [|x l IH]; [done|]. csimpl. by rewrite IH.
Qed.

Lemma length_pad n l : length l ≤ n → length (pad n l) = n.
Proof.
  intros Hl. unfold pad. rewrite length_app, length_fmap, length_replicate. lia.
Qed.

Lemma foldl_reducer row acc :
  acc_result (foldl reducer acc row)
    ++ (Some <$> slot (acc_last (foldl reducer acc row))) =
  acc_result acc
    ++ (Some <$> (value <$> spec_scan TARGET_TILE (acc_last acc) (tiles row)))
  ∧ acc_gained (foldl reducer acc row) =
    (acc_gained acc + sumZ (gain <$> spec_scan TARGET_TILE (acc_last acc) (tiles row)))%Z.
Proof.
  revert acc. induction row as [|[v|] row IH]; intros acc.
  - simpl. destruct (acc_last acc); simpl; split; (done || unfold sumZ; simpl; lia).
  - change (foldl reducer acc (Some v :: row))
      with (foldl reducer (reducer acc (Some v)) row).
    change (tiles (Some v :: row)) with (v :: tiles row).
    destruct (IH (reducer acc (Some v))) as [HE Hg]. rewrite HE, Hg. clear IH HE Hg.
    unfold reducer. destruct (acc_last acc) as [q|] eqn:Hq; csimpl; [|done].
    rewrite (Z.mul_comm v 2).
    destruct ((q =? v)%Z && (2 * v <=? TARGET_TILE)%Z); csimpl.
    + rewrite <-(assoc_L (++)). split; [done|]. unfold sumZ. csimpl. lia.
    + rewrite <-(assoc_L (++)). done.
  - change (foldl reducer acc (None :: row)) with (foldl reducer acc row).
    change (tiles (None :: row)) with (tiles row). apply IH.
Qed.

(** The padding reads of [arr]: the scan's output, then [null]. *)
Lemma moveRowLeft_arr_lookup row i :
  nullish (moveRowLeft_arr row !! i) =
  nullish ((Some <$> (value <$> spec_scan TARGET_TILE None (tiles row))) !! i).
Proof.
  unfold moveRowLeft_arr.
  destruct (foldl_reducer row reducer_init) as [HE _]. simpl in HE.
  rewrite <-HE. clear HE.
  destruct (acc_last (foldl reducer reducer_init row)) as [v|]; [done|].
  simpl. rewrite app_nil_r.
  set (E := acc_result (foldl reducer reducer_init row)).
  destruct (decide (i < length E)) as [Hi|Hi].
  - by rewrite lookup_app_l.
  - rewrite lookup_app_r, (lookup_ge_None_2 E) by lia.
    by destruct (i - length E) as [|[|k]].
Qed.

Lemma moveRowLeft_result row :
  row_result (moveRowLeft row) =
  pad (length row) (value <$> spec_scan TARGET_TILE None (tiles row)).
Proof.
  unfold moveRowLeft. simpl. fold (moveRowLeft_arr row).
  pose proof (spec_scan_length TARGET_TILE None (tiles row)) as Hlen.
  pose proof (tiles_length row) as Hrow. simpl in Hlen.
  set (vals := value <$> spec_scan TARGET_TILE None (tiles row)).
  assert (Hvals : length vals ≤ length row).
  { unfold vals. rewrite length_fmap. lia. }
  change (tab (length row) (fun i => nullish (moveRowLeft_arr row !! i))
          = pad (length row) vals).
  apply list_eq. intros i. unfold pad.
  destruct (decide (i < length row)) as [Hi|Hi].
  - rewrite lookup_tab, moveRowLeft_arr_lookup by done. fold vals.
    destruct (decide (i < length vals)) as [Hv|Hv].
    + rewrite lookup_app_l by (by rewrite length_fmap).
      rewrite list_lookup_fmap.
      destruct (lookup_lt_is_Some_2 vals i Hv) as [x ->]. done.
    + rewrite lookup_app_r by (rewrite length_fmap; lia).
      rewrite (lookup_ge_None_2 (Some <$> vals)) by (rewrite length_fmap; lia).
      rewrite length_fmap, lookup_replicate_2 by lia. done.
  - rewrite lookup_tab_ge by lia. symmetry. apply lookup_ge_None_2.
    rewrite length_app, length_fmap, length_replicate. lia.
Qed.

Lemma moveRowLeft_gained row :
  row_gained (moveRowLeft row) =
  sumZ (gain <$> spec_scan TARGET_TILE None (tiles row)).
Proof.
  unfold moveRowLeft. simpl.
  destruct (foldl_reducer row reducer_init) as [_ ->]. simpl. lia.
Qed.

Lemma moveRowLeft_length row : length (row_result (moveRowLeft row)) = length row.
Proof. unfold moveRowLeft. simpl. by rewrite length_fmap, length_seq. Qed.

Lemma some_from_false out row i :
  some_from (differs out) i row = false ↔
  ∀ k v, row !! k = Some v → out !! (i + k) = Some v.
Proof.
  revert i. induction row as [|w row IH]; intros i; simpl.
  - split; [intros _ k v Hk; done|done].
  - rewrite orb_false_iff, IH. split.
    + intros [Hd Hrest] [|k] v Hk; simpl in Hk.
      * injection Hk as ->. unfold differs in Hd. rewrite Nat.add_0_r.
        destruct (out !! i) as [u|]; [|done].
        apply negb_false_iff, tile_eqb_eq in Hd. by subst.
      * rewrite <-Nat.add_succ_comm. by apply Hrest.
    + intros Hall. split.
      * specialize (Hall 0 w eq_refl). rewrite Nat.add_0_r in Hall.
        unfold differs. rewrite Hall. apply negb_false_iff, tile_eqb_eq. done.
      * intros k v Hk. rewrite Nat.add_succ_comm. by apply (Hall (S k)).
Qed.

Lemma moveRowLeft_isMoved_false row :
  row_isMoved (moveRowLeft row) = false ↔ row_result (moveRowLeft row) = row.
Proof.
  pose proof (moveRowLeft_length row) as Hlen.
  unfold moveRowLeft in *. simpl in *.
  set (out := (fun i => nullish _) <$> seq 0 (length row)) in *.
  rewrite some_from_false. split.
  - intros Hall. apply list_eq. intros k.
    destruct (row !! k) as [v|] eqn:Hk.
    + by apply (Hall k v).
    + apply lookup_ge_None. apply lookup_ge_None in Hk. lia.
  - intros -> k v Hk. done.
Qed.

(** Two equal tiles whose double exceeds the ceiling stay as they are. *)
Lemma moveRowLeft_blocked_pair (v : Z) :
  (TARGET_TILE < 2 * v)%Z →
  moveRowLeft [Some v; Some v] = mkRowMove [Some v; Some v] false 0.
Proof.
  intros Hv. unfold moveRowLeft, differs. cbn -[TARGET_TILE].
  rewrite Z.eqb_refl. cbn -[TARGET_TILE].
  destruct (Z.leb_spec (v * 2) TARGET_TILE) as [Hle|Hgt]; [lia|].
  cbn. by rewrite Z.eqb_refl.
Qed.
End RowStep.

(** * The whole grid *)

Section GridMove.
Implicit Types (map : list (list (option Z))) (R C r c : nat) (D : Direction).

Lemma sumZ_app (l1 l2 : list Z) : sumZ (l1 ++ l2) = (sumZ l1 + sumZ l2)%Z.
Proof.
  unfold sumZ. induction l1 as [|x l1 IH]; simpl; [lia|]. rewrite IH. lia.
Qed.

Lemma foldl_row_gained (rows : list RowMove) (a : Z) :
  foldl (fun s x => (s + row_gained x)%Z) a rows = (a + sumZ (row_gained <$> rows))%Z.
Proof.
  revert a. induction rows as [|x rows IH]; intros a; csimpl.
  - unfold sumZ. simpl. lia.
  - rewrite IH. unfold sumZ. simpl. lia.
Qed.

Lemma moveLeft_result map : result (moveLeft map) = spec_row TARGET_TILE <$> map.
Proof.
  unfold moveLeft. simpl. rewrite <-list_fmap_compose.
  apply list_fmap_ext. intros i row _. apply moveRowLeft_result.
Qed.

Lemma moveLeft_gained map :
  gained (moveLeft map) = sumZ (gain <$> emitted TARGET_TILE map).
Proof.
  unfold moveLeft, emitted. simpl. rewrite foldl_row_gained, Z.add_0_l.
  induction map as [|row map IH]; [done|]. csimpl.
  rewrite fmap_app, sumZ_app, <-IH, <-moveRowLeft_gained. unfold sumZ. simpl. lia.
Qed.

Lemma moveLeft_isMoved_false map :
  isMoved (moveLeft map) = false ↔ result (moveLeft map) = map.
Proof.
  unfold moveLeft. simpl. induction map as [|row map IH]; csimpl; [done|].
  split.
  - intros [H1 H2]%orb_false_iff.
    apply moveRowLeft_isMoved_false in H1. apply IH in H2. by f_equal.
  - intros [= H1 H2]. apply orb_false_iff.
    split; [by apply moveRowLeft_isMoved_false|by apply IH].
Qed.

Lemma spec_row_length (t : Z) (row : list (option Z)) :
  length (spec_row t row) = length row.
Proof.
  unfold spec_row. apply length_pad. rewrite length_fmap.
  pose proof (spec_scan_length t None (tiles row)).
  pose proof (tiles_length row). simpl in *. lia.
Qed.

Lemma moveLeft_rectangular map R C :
  rectangular map R C → rectangular (result (moveLeft map)) R C.
Proof.
  intros [HR HC]. rewrite moveLeft_result. split.
  - by rewrite length_fmap.
  - apply Forall_fmap. eapply Forall_impl; [done|]. simpl.
    intros row <-. apply spec_row_length.
Qed.

Lemma rectangular_nil map C : rectangular map 0 C → map = [].
Proof. intros [HR _]. by destruct map. Qed.

(** [moveMapIn2048Rule] returns on a rectangular grid exactly when neither
    rotation meets a grid without rows. *)
Lemma move_ok_iff map R C D (res : Move) :
  rectangular map R C →
  moveMapIn2048Rule map D = Ok res ↔
  0 < R ∧ 0 < rot_rows (rotateMapDeg D) R C ∧ res = move_rect D R C map.
Proof.
  intros Hrect. unfold moveMapIn2048Rule, move_rect.
  destruct (decide (0 < R)) as [HR|HR].
  - rewrite (rotateMap_rect map R C) by done. rewrite outcome_bind_ok.
    set (fwd := rotateMapDeg D). cbv zeta.
    pose proof (moveLeft_rectangular _ _ _ (rot_rectangular fwd _ _ _ Hrect)) as Hm.
    destruct (decide (0 < rot_rows fwd R C)) as [HR'|HR'].
    + rewrite (rotateMap_rect _ _ _ _ Hm HR'), outcome_bind_ok.
      split; [intros [= <-]; done|intros (_ & _ & ->); done].
    + assert (rot_rows fwd R C = 0) as H0 by lia. rewrite H0 in Hm.
      rewrite (rectangular_nil _ _ Hm), rotateMap_nil.
      split; [done|intros (_ & ? & _); lia].
  - assert (R = 0) as -> by lia. rewrite (rectangular_nil _ _ Hrect), rotateMap_nil.
    split; [done|intros (? & _); lia].
Qed.

Lemma move_total map R C D :
  rectangular map R C → 0 < R → 0 < C →
  moveMapIn2048Rule map D = Ok (move_rect D R C map).
Proof.
  intros Hrect HR HC. apply (move_ok_iff _ R C); [done|].
  split; [done|]. split; [|done]. destruct D; simpl; lia.
Qed.
End GridMove.

(** * Rotations and their inverses *)

Section RoundTrip.
Implicit Types (map : list (list (option Z))) (R C r c : nat) (D : Direction).

Lemma revert_inverse D : revertMapDeg D = inverse_deg (rotateMapDeg D).
Proof. by destruct D. Qed.

Lemma rotate_inverse D : rotateMapDeg D = inverse_deg (revertMapDeg D).
Proof. by destruct D. Qed.

Lemma rot_dims_back deg R C :
  rot_rows (inverse_deg deg) (rot_rows deg R C) (rot_cols deg R C) = R ∧
  rot_cols (inverse_deg deg) (rot_rows deg R C) (rot_cols deg R C) = C.
Proof. by destruct deg. Qed.

Lemma rotateMap_ok_inv map R C deg (g : list (list (option Z))) :
  rectangular map R C → rotateMap map deg = Ok g → 0 < R ∧ g = rot deg R C map.
Proof.
  intros Hrect Hg. destruct (decide (0 < R)) as [HR|HR].
  - rewrite (rotateMap_rect _ _ _ _ Hrect HR) in Hg. by injection Hg as <-.
  - assert (R = 0) as -> by lia.
    by rewrite (rectangular_nil _ _ Hrect), rotateMap_nil in Hg.
Qed.

(** Rotating back first and forth afterwards is the identity as well. *)
Lemma rot_inverse_back D map R C :
  rectangular map (rot_rows (rotateMapDeg D) R C) (rot_cols (rotateMapDeg D) R C) →
  rot (rotateMapDeg D) R C
    (rot (revertMapDeg D) (rot_rows (rotateMapDeg D) R C) (rot_cols (rotateMapDeg D) R C) map)
  = map.
Proof.
  intros Hrect.
  pose proof (rot_inverse (revertMapDeg D) map _ _ Hrect) as Hinv.
  rewrite <-rotate_inverse in Hinv. by destruct D.
Qed.
End RoundTrip.

(** C1, as the code has it: for every rectangular grid with at least one row
    and at least one column and every direction, the rotation by the forward
    degree of the direction followed by the rotation by its reverse degree
    returns the grid itself, rows and cells; and on any rectangular grid, if
    the two rotations return, the second returns the grid itself. *)
Theorem rotate_round_trip (G : list (list (option Z))) (R C : nat) (D : Direction) :
  rectangular G R C →
  (0 < R → 0 < C →
     ∃ G1, rotateMap G (rotateMapDeg D) = Ok G1 ∧
           rotateMap G1 (revertMapDeg D) = Ok G) ∧
  (∀ G1 G2, rotateMap G (rotateMapDeg D) = Ok G1 →
            rotateMap G1 (revertMapDeg D) = Ok G2 → G2 = G).
Proof.
  intros Hrect.
  pose proof (rot_rectangular (rotateMapDeg D) _ _ _ Hrect) as Hrot.
  pose proof (rot_inverse (rotateMapDeg D) _ _ _ Hrect) as Hinv.
  rewrite <-revert_inverse in Hinv. split.
  - intros HR HC. exists (rot (rotateMapDeg D) R C G). split.
    + by apply rotateMap_rect.
    + rewrite (rotateMap_rect _ _ _ _ Hrot), Hinv; [done|].
      destruct D; simpl; lia.
  - intros G1 G2 H1 H2.
    apply (rotateMap_ok_inv _ _ _ _ _ Hrect) in H1 as [_ ->].
    apply (rotateMap_ok_inv _ _ _ _ _ Hrot) in H2 as [_ ->]. done.
Qed.

Lemma rotate_round_trip_witness :
  ∃ G1, rotateMap [[Some 2; None; Some 4]; [Some 8; Some 16; None]]%Z (rotateMapDeg Up) = Ok G1 ∧
        rotateMap G1 (revertMapDeg Up) = Ok [[Some 2; None; Some 4]; [Some 8; Some 16; None]]%Z.
Proof.
  assert (Hrect : rectangular [[Some 2; None; Some 4]; [Some 8; Some 16; None]]%Z 2 3)
    by (split; [reflexivity|repeat constructor]).
  apply (proj1 (rotate_round_trip _ 2 3 Up Hrect)); lia.
Defined.

(** C1 as stated fails on a rectangular grid without columns: the quarter
    turn of [[]] is the grid without rows, and the rotation back of that grid
    throws when it reads [map[0].length]. *)
Lemma rotate_back_throws :
  rectangular [[]] 1 0 ∧
  rotateMap [[]] (rotateMapDeg Up) = Ok [] ∧
  rotateMap [] (revertMapDeg Up) = Raise TypeError.
Proof.
  split; [split; [reflexivity|repeat constructor]|]. split; reflexivity.
Qed.

(** C4, as the code has it: the quarter turn of a grid of [R] rows and [C]
    columns has [C] rows of [R] cells, and its cell at row [c], column [r] is
    the input cell at row [r], column [C - c - 1]; it returns on every grid
    that has a row. *)
Theorem rotate90_cells (G : list (list (option Z))) (R C : nat) :
  rectangular G R C →
  (0 < R → ∃ out, rotateMap G Deg90 = Ok out) ∧
  (∀ out, rotateMap G Deg90 = Ok out →
     rectangular out C R ∧
     ∀ r c, r < R → c < C → get out c r = get G r (C - c - 1)).
Proof.
  intros Hrect. split.
  - intros HR. eexists. by apply (rotateMap_rect _ R C).
  - intros out Hout.
    apply (rotateMap_ok_inv _ _ _ _ _ Hrect) in Hout as [_ ->]. split.
    + apply (rot_rectangular Deg90 _ _ _ Hrect).
    + intros r c Hr Hc. simpl. by rewrite get_tab.
Qed.

Lemma rotate90_cells_witness :
  ∃ out, rotateMap [[Some 1; Some 2; Some 3]; [Some 4; Some 5; Some 6]]%Z Deg90 = Ok out.
Proof.
  assert (Hrect : rectangular [[Some 1; Some 2; Some 3]; [Some 4; Some 5; Some 6]]%Z 2 3)
    by (split; [reflexivity|repeat constructor]).
  apply (proj1 (rotate90_cells _ 2 3 Hrect)); lia.
Defined.

(** C4 as the specification words it fails: in the quarter turn of
    [[1,2],[3,4]] the cell at row 0, column 1 is 4, the input cell at row 0,
    column [2 - 1 - 1] is 1. *)
Lemma rotate90_not_mirror :
  ∃ out, rotateMap [[Some 1; Some 2]; [Some 3; Some 4]]%Z Deg90 = Ok out ∧
    ¬ (∀ r c, r < 2 → c < 2 →
         get out r c = get [[Some 1; Some 2]; [Some 3; Some 4]]%Z r (2 - c - 1)).
Proof.
  exists [[Some 2; Some 4]; [Some 1; Some 3]]%Z. split; [reflexivity|].
  intros H. specialize (H 0 1). simpl in H. discriminate H; lia.
Qed.

(** C7: the row [2, null, 2, 2] moved left is [4, 2, null, null] with a gain
    of 4 and the moved flag set: the leftmost pair of 2s merges and the
    trailing 2 stays.  A tile made by a merge does not merge again in the same
    move: [2, 2, 4, null] gives [4, 4, null, null] with a gain of 4. *)
Theorem moveRowLeft_no_chain :
  moveRowLeft [Some 2; None; Some 2; Some 2]%Z
  = mkRowMove [Some 4; Some 2; None; None]%Z true 4 ∧
  moveRowLeft [Some 2; Some 2; Some 4; None]%Z
  = mkRowMove [Some 4; Some 4; None; None]%Z true 4.
Proof. split; vm_compute; reflexivity. Qed.

(** * The tiles of a grid under rotation and under the row step *)

Section GridTiles.
Implicit Types (map : list (list (option Z))) (R C : nat) (t v : Z).

Lemma tiles_concat map : tiles (concat map) = concat (tiles <$> map).
Proof.
  unfold tiles. induction map as [|row map IH]; [done|].
  csimpl. by rewrite omap_app, IH.
Qed.

Lemma grid_tiles_rot deg map R C :
  rectangular map R C → grid_tiles (rot deg R C map) ≡ₚ grid_tiles map.
Proof.
  intros Hrect. unfold grid_tiles, tiles. by rewrite (rot_perm deg map R C Hrect).
Qed.

Lemma grid_tiles_spec_row t map :
  grid_tiles (spec_row t <$> map) = value <$> emitted t map.
Proof.
  unfold grid_tiles, emitted. rewrite tiles_concat.
  induction map as [|row map IH]; [done|].
  csimpl. rewrite fmap_app, <-IH. f_equal. apply tiles_pad.
Qed.

Lemma emitted_ceiling t map :
  Forall (fun x => x ≤ t)%Z (grid_tiles map) →
  Forall (fun x => x ≤ t)%Z (value <$> emitted t map).
Proof.
  unfold grid_tiles, emitted. rewrite tiles_concat.
  induction map as [|row map IH]; csimpl; [done|].
  rewrite fmap_app, !Forall_app. intros [Hrow Hmap]. split; [|by apply IH].
  by apply spec_scan_ceiling.
Qed.

Lemma emitted_count t map v :
  (t < 2 * v)%Z →
  count_occ Z.eq_dec (grid_tiles map) v ≤ count_occ Z.eq_dec (value <$> emitted t map) v.
Proof.
  intros Hv. unfold grid_tiles, emitted. rewrite tiles_concat.
  induction map as [|row map IH]; csimpl; [done|].
  rewrite fmap_app, !count_occ_app.
  pose proof (spec_scan_count t None (tiles row) v Hv). simpl in *. lia.
Qed.

Lemma emitted_gain_even t map : ∃ k, sumZ (gain <$> emitted t map) = (2 * k)%Z.
Proof.
  unfold emitted. induction map as [|row map [k IH]]; csimpl.
  - by exists 0%Z.
  - destruct (spec_scan_gain_even t None (tiles row)) as [k' Hk'].
    exists (k' + k)%Z. rewrite fmap_app, sumZ_app, IH, Hk'. lia.
Qed.

Lemma emitted_gain_nonneg t map :
  Forall (fun x => 0 ≤ x)%Z (grid_tiles map) → (0 ≤ sumZ (gain <$> emitted t map))%Z.
Proof.
  unfold grid_tiles, emitted. rewrite tiles_concat.
  induction map as [|row map IH]; csimpl; [done|].
  rewrite fmap_app, sumZ_app, Forall_app. intros [Hrow Hmap].
  pose proof (spec_scan_gain_nonneg t None _ Hrow). specialize (IH Hmap). lia.
Qed.

Lemma emitted_no_merge t map :
  Forall (fun e => is_merged e = false) (emitted t map) →
  value <$> emitted t map = grid_tiles map.
Proof.
  unfold grid_tiles, emitted. rewrite tiles_concat.
  induction map as [|row map IH]; csimpl; [done|].
  rewrite fmap_app, Forall_app. intros [Hrow Hmap].
  by rewrite IH, (spec_scan_no_merge t None).
Qed.

Lemma emitted_gain_zero t map :
  Forall (fun x => 0 < x)%Z (grid_tiles map) →
  sumZ (gain <$> emitted t map) = 0%Z →
  Forall (fun e => is_merged e = false) (emitted t map).
Proof.
  unfold grid_tiles, emitted. rewrite tiles_concat.
  induction map as [|row map IH]; csimpl; [done|].
  rewrite fmap_app, sumZ_app, !Forall_app. intros [Hrow Hmap] Hzero.
  assert (Hnn : ∀ l : list Z, Forall (fun x => 0 < x)%Z l → Forall (fun x => 0 ≤ x)%Z l).
  { intros l Hl. eapply Forall_impl; [done|]. simpl. lia. }
  pose proof (spec_scan_gain_nonneg t None _ (Hnn _ Hrow)) as H1.
  assert (H2 : (0 ≤ sumZ (gain <$>
    concat ((fun row => spec_scan t None (tiles row)) <$> map)))%Z).
  { apply (emitted_gain_nonneg t map). unfold grid_tiles.
    rewrite tiles_concat. by apply Hnn. }
  split.
  - apply spec_scan_gain_zero; [done|lia].
  - apply IH; [done|lia].
Qed.

Lemma emitted_merged t map v :
  Merged v ∈ emitted t map → (2 * v ≤ t)%Z ∧ v ∈ grid_tiles map.
Proof.
  unfold grid_tiles, emitted. rewrite tiles_concat.
  induction map as [|row map IH]; csimpl.
  - intros H. by apply elem_of_nil in H.
  - rewrite !elem_of_app. intros [H|H].
    + apply spec_scan_merged in H as [? ?]. auto.
    + destruct (IH H). auto.
Qed.

Lemma sum_gain_merged (es : list Emitted) :
  sumZ (gain <$> es) = sumZ (merged_values es).
Proof.
  unfold merged_values, sumZ. induction es as [|[v|v] es IH]; [done|..].
  - rewrite filter_cons_False by done. csimpl. rewrite IH. lia.
  - rewrite filter_cons_True by done. csimpl. by rewrite IH.
Qed.

Lemma merged_values_nil (es : list Emitted) :
  merged_values es = [] → Forall (fun e => is_merged e = false) es.
Proof.
  unfold merged_values. induction es as [|[v|v] es IH]; [done|..].
  - rewrite filter_cons_False by done. intros H. constructor; [done|by apply IH].
  - rewrite filter_cons_True by done. done.
Qed.
End GridTiles.

(** * The move on a rectangular grid *)

Section MoveRect.
Implicit Types (map : list (list (option Z))) (R C r c : nat) (D : Direction).

Lemma move_rect_result D R C map :
  result (move_rect D R C map) =
  rot (revertMapDeg D) (rot_rows (rotateMapDeg D) R C) (rot_cols (rotateMapDeg D) R C)
    (spec_row TARGET_TILE <$> rot (rotateMapDeg D) R C map).
Proof. unfold move_rect. cbv zeta. cbn [result isMoved gained]. by rewrite moveLeft_result. Qed.

Lemma move_rect_gained D R C map :
  gained (move_rect D R C map) =
  sumZ (gain <$> emitted TARGET_TILE (rot (rotateMapDeg D) R C map)).
Proof. unfold move_rect. cbv zeta. cbn [result isMoved gained]. apply moveLeft_gained. Qed.

Lemma move_rect_rectangular D R C map :
  rectangular map R C → rectangular (result (move_rect D R C map)) R C.
Proof.
  intros Hrect. unfold move_rect. cbv zeta. cbn [result isMoved gained].
  pose proof (moveLeft_rectangular _ _ _
    (rot_rectangular (rotateMapDeg D) _ _ _ Hrect)) as Hm.
  pose proof (rot_rectangular (revertMapDeg D) _ _ _ Hm) as Hback.
  rewrite revert_inverse in *.
  destruct (rot_dims_back (rotateMapDeg D) R C) as [H1 H2].
  by rewrite H1, H2 in Hback.
Qed.

Lemma move_rect_tiles D R C map :
  rectangular map R C →
  grid_tiles (result (move_rect D R C map)) ≡ₚ
  value <$> emitted TARGET_TILE (rot (rotateMapDeg D) R C map).
Proof.
  intros Hrect.
  pose proof (moveLeft_rectangular _ _ _
    (rot_rectangular (rotateMapDeg D) _ _ _ Hrect)) as Hm.
  unfold move_rect. cbv zeta. cbn [result isMoved gained]. rewrite (grid_tiles_rot _ _ _ _ Hm).
  by rewrite moveLeft_result, grid_tiles_spec_row.
Qed.

(** The grid is unchanged exactly when no row of the rotated grid is. *)
Lemma move_rect_unchanged D R C map :
  rectangular map R C →
  result (move_rect D R C map) = map ↔ isMoved (move_rect D R C map) = false.
Proof.
  intros Hrect. unfold move_rect. cbv zeta. cbn [result isMoved gained]. rewrite moveLeft_isMoved_false.
  pose proof (rot_rectangular (rotateMapDeg D) _ _ _ Hrect) as Hrot.
  pose proof (moveLeft_rectangular _ _ _ Hrot) as Hm.
  pose proof (rot_inverse (rotateMapDeg D) _ _ _ Hrect) as Hinv.
  rewrite <-revert_inverse in Hinv. split.
  - intros Heq. rewrite <-(rot_inverse_back D _ R C Hm). by rewrite Heq.
  - intros ->. done.
Qed.

Lemma list_neq_lookup {A : Type} `{EqDecision A} (l1 l2 : list A) :
  length l1 = length l2 → l1 ≠ l2 →
  ∃ i x y, l1 !! i = Some x ∧ l2 !! i = Some y ∧ x ≠ y.
Proof.
  revert l2. induction l1 as [|a l1 IH]; intros [|b l2] Hlen Hne; simplify_eq/=.
  destruct (decide (a = b)) as [->|Hab].
  - destruct (IH l2) as (i & x & y & ? & ? & ?); [done|congruence|].
    by exists (S i), x, y.
  - by exists 0, a, b.
Qed.

Lemma grid_neq_cell (g1 g2 : list (list (option Z))) R C :
  rectangular g1 R C → rectangular g2 R C → g1 ≠ g2 →
  ∃ r c, r < R ∧ c < C ∧ get g1 r c ≠ get g2 r c.
Proof.
  intros H1 H2 Hne.
  destruct (list_neq_lookup g1 g2) as (r & row1 & row2 & Hr1 & Hr2 & Hrow).
  { destruct H1, H2. congruence. }
  { done. }
  pose proof (rectangular_lookup _ _ _ _ _ H1 Hr1) as Hl1.
  pose proof (rectangular_lookup _ _ _ _ _ H2 Hr2) as Hl2.
  destruct (list_neq_lookup row1 row2) as (c & x & y & Hx & Hy & Hxy);
    [congruence|done|].
  exists r, c. split; [|split].
  - destruct H1 as [<- _]. by apply lookup_lt_Some in Hr1.
  - rewrite <-Hl1. by apply lookup_lt_Some in Hx.
  - unfold get. by rewrite Hr1, Hr2, Hx, Hy.
Qed.
End MoveRect.

(** C3: on every rectangular grid and in every direction the [isMoved] flag
    that the move returns is set exactly when the returned grid differs from
    the input in some cell, and a move whose flag is not set returns the input
    grid; the move returns on every grid that has a row and a column. *)
Theorem moved_iff_changed (G : list (list (option Z))) (R C : nat) (D : Direction) :
  rectangular G R C →
  (0 < R → 0 < C → ∃ res, moveMapIn2048Rule G D = Ok res) ∧
  (∀ res, moveMapIn2048Rule G D = Ok res →
     rectangular (result res) R C ∧
     (isMoved res = true ↔
        ∃ r c, r < R ∧ c < C ∧ get (result res) r c ≠ get G r c) ∧
     (isMoved res = false → result res = G)).
Proof.
  intros Hrect. split.
  - intros HR HC. eexists. by apply (move_total _ R C).
  - intros res Hres. apply (move_ok_iff _ R C) in Hres as (_ & _ & ->); [|done].
    pose proof (move_rect_rectangular D _ _ _ Hrect) as Hres.
    pose proof (move_rect_unchanged D _ _ _ Hrect) as Hun.
    split; [done|]. split; [split|].
    + intros Hmoved. apply (grid_neq_cell _ _ R C); [done..|].
      intros Heq. apply Hun in Heq. congruence.
    + intros (r & c & _ & _ & Hne).
      apply not_false_iff_true. intros Hm.
      apply Hun in Hm. by rewrite Hm in Hne.
    + intros Hm. by apply Hun.
Qed.

Lemma moved_iff_changed_witness :
  ∃ res, moveMapIn2048Rule [[Some 2; None]; [Some 2; Some 4]]%Z Down = Ok res.
Proof.
  assert (Hrect : rectangular [[Some 2; None]; [Some 2; Some 4]]%Z 2 2)
    by (split; [reflexivity|repeat constructor]).
  apply (proj1 (moved_iff_changed _ 2 2 Down Hrect)); lia.
Defined.

(** C2: when no tile of the grid exceeds the ceiling [TARGET_TILE], no tile of
    the grid that the move returns does; and a tile whose double would exceed
    the ceiling is never merged: the returned grid holds it at least as often
    as the input, and a row of two such equal tiles comes back as it is, not
    moved and with no gain.  The move returns on every grid that has a row and
    a column. *)
Theorem ceiling_respected (G : list (list (option Z))) (R C : nat) (D : Direction) :
  rectangular G R C →
  Forall (fun v => v ≤ TARGET_TILE)%Z (grid_tiles G) →
  (0 < R → 0 < C → ∃ res, moveMapIn2048Rule G D = Ok res) ∧
  (∀ res, moveMapIn2048Rule G D = Ok res →
     Forall (fun v => v ≤ TARGET_TILE)%Z (grid_tiles (result res)) ∧
     ∀ v, (TARGET_TILE < 2 * v)%Z →
       count_occ Z.eq_dec (grid_tiles G) v
       ≤ count_occ Z.eq_dec (grid_tiles (result res)) v) ∧
  (∀ v, (TARGET_TILE < 2 * v)%Z →
     moveRowLeft [Some v; Some v] = mkRowMove [Some v; Some v] false 0).
Proof.
  intros Hrect Hle. split; [|split].
  - intros HR HC. eexists. by apply (move_total _ R C).
  - intros res Hres. apply (move_ok_iff _ R C) in Hres as (_ & _ & ->); [|done].
    pose proof (move_rect_tiles D _ _ _ Hrect) as Hperm.
    pose proof (grid_tiles_rot (rotateMapDeg D) _ _ _ Hrect) as Hrot.
    split.
    + rewrite Hperm. apply emitted_ceiling. by rewrite Hrot.
    + intros v Hv.
      rewrite (proj1 (Permutation_count_occ Z.eq_dec _ _) Hperm v).
      rewrite <-(proj1 (Permutation_count_occ Z.eq_dec _ _) Hrot v).
      by apply emitted_count.
  - intros v Hv. by apply moveRowLeft_blocked_pair.
Qed.

Lemma ceiling_respected_witness :
  ∃ res, moveMapIn2048Rule
           [[Some 128; Some 128]; [Some 64; Some 64]]%Z Left = Ok res.
Proof.
  assert (Hrect : rectangular [[Some 128; Some 128]; [Some 64; Some 64]]%Z 2 2)
    by (split; [reflexivity|repeat constructor]).
  assert (Hle : Forall (fun v => v ≤ TARGET_TILE)%Z
                  (grid_tiles [[Some 128; Some 128]; [Some 64; Some 64]]%Z))
    by (repeat constructor; vm_compute; discriminate).
  apply (proj1 (ceiling_respected _ 2 2 Left Hrect Hle)); lia.
Defined.

(** C8: a move without a merge keeps the tiles of the grid.  On a grid of
    tiles, which are positive (section 3 of the specification), a move that
    returns [gained] 0 returns a grid whose tiles are a permutation of the
    tiles of the input; so does, for any tiles, a move in which no row of the
    rotated grid merged a pair.  The move returns on every grid that has a row
    and a column. *)
Theorem no_merge_conserves_tiles (G : list (list (option Z))) (R C : nat) (D : Direction) :
  rectangular G R C →
  (0 < R → 0 < C → ∃ res, moveMapIn2048Rule G D = Ok res) ∧
  (∀ res, moveMapIn2048Rule G D = Ok res →
     (Forall (fun v => 0 < v)%Z (grid_tiles G) → gained res = 0%Z →
        grid_tiles (result res) ≡ₚ grid_tiles G) ∧
     (∀ rotated, rotateMap G (rotateMapDeg D) = Ok rotated →
        merged_values (emitted TARGET_TILE rotated) = [] →
        grid_tiles (result res) ≡ₚ grid_tiles G)).
Proof.
  intros Hrect. split.
  - intros HR HC. eexists. by apply (move_total _ R C).
  - intros res Hres. apply (move_ok_iff _ R C) in Hres as (HR & HR' & ->); [|done].
    pose proof (move_rect_tiles D _ _ _ Hrect) as Hperm.
    pose proof (grid_tiles_rot (rotateMapDeg D) _ _ _ Hrect) as Hrot.
    assert (Hkeep : Forall (fun e => is_merged e = false)
                      (emitted TARGET_TILE (rot (rotateMapDeg D) R C G)) →
                    grid_tiles (result (move_rect D R C G)) ≡ₚ grid_tiles G).
    { intros Hno. by rewrite Hperm, (emitted_no_merge _ _ Hno). }
    split.
    + intros Hpos Hzero. apply Hkeep.
      rewrite move_rect_gained in Hzero.
      apply emitted_gain_zero; [|done]. by rewrite Hrot.
    + intros rotated Hrotated Hnil.
      apply (rotateMap_ok_inv _ _ _ _ _ Hrect) in Hrotated as [_ ->].
      by apply Hkeep, merged_values_nil.
Qed.

Lemma no_merge_conserves_tiles_witness :
  ∃ res, moveMapIn2048Rule
           [[None; Some 2; Some 4]; [Some 8; None; Some 2]]%Z Up = Ok res.
Proof.
  assert (Hrect : rectangular [[None; Some 2; Some 4]; [Some 8; None; Some 2]]%Z 2 3)
    by (split; [reflexivity|repeat constructor]).
  apply (proj1 (no_merge_conserves_tiles _ 2 3 Up Hrect)); lia.
Defined.

(** * Compaction *)

Section Compaction.
Implicit Types (map : list (list (option Z))) (R C r c : nat) (l : list Z).

Lemma pad_filled n l i : nullish (pad n l !! i) ≠ None ↔ i < length l.
Proof.
  unfold pad. destruct (decide (i < length l)) as [Hi|Hi].
  - rewrite lookup_app_l, list_lookup_fmap by (by rewrite length_fmap).
    destruct (lookup_lt_is_Some_2 l i Hi) as [x ->]. done.
  - rewrite lookup_app_r, length_fmap by (rewrite length_fmap; lia).
    split; [|lia]. intros Hne. exfalso. apply Hne.
    destruct (replicate (n - length l) None !! (i - length l)) as [x|] eqn:Hx; [|done].
    by apply lookup_replicate in Hx as [-> _].
Qed.

Lemma spec_row_compact (t : Z) map r c c' :
  c' < c → filled (spec_row t <$> map) r c → filled (spec_row t <$> map) r c'.
Proof.
  intros Hc. unfold filled, get. rewrite list_lookup_fmap.
  destruct (map !! r) as [row|]; simpl; [|done].
  unfold spec_row. rewrite !pad_filled. lia.
Qed.

Lemma move_rect_compacted D R C map :
  rectangular map R C → compacted D R C (result (move_rect D R C map)).
Proof.
  intros Hrect. rewrite move_rect_result.
  set (X := rot (rotateMapDeg D) R C map).
  pose proof (spec_row_compact TARGET_TILE X) as Hrow.
  destruct D; simpl; unfold filled in *.
  - intros r r' c Hc Hr' Hr. rewrite !get_tab by lia. apply Hrow. lia.
  - intros r r' c Hc Hr Hr'. rewrite !get_tab by lia. apply Hrow. lia.
  - intros r c c' _ Hc' _. by apply Hrow.
  - intros r c c' Hr Hc Hc'. rewrite !get_tab by lia. apply Hrow. lia.
Qed.
End Compaction.

(** C10: in the row that [moveRowLeft] returns the tiles come first and the
    empty cells after them, whatever merges the ceiling blocked; and in the
    grid that a move returns no tile has an empty cell between it and the wall
    of the direction of the move.  The move returns on every grid that has a
    row and a column. *)
Theorem move_compacts (G : list (list (option Z))) (R C : nat) (D : Direction) :
  (∀ row : list (option Z), ∃ l : list Z,
     row_result (moveRowLeft row) = (Some <$> l) ++ replicate (length row - length l) None) ∧
  (rectangular G R C →
     (0 < R → 0 < C → ∃ res, moveMapIn2048Rule G D = Ok res) ∧
     (∀ res, moveMapIn2048Rule G D = Ok res → compacted D R C (result res))).
Proof.
  split.
  - intros row. eexists. by rewrite moveRowLeft_result.
  - intros Hrect. split.
    + intros HR HC. eexists. by apply (move_total _ R C).
    + intros res Hres. apply (move_ok_iff _ R C) in Hres as (_ & _ & ->); [|done].
      by apply move_rect_compacted.
Qed.

Lemma move_compacts_witness :
  ∃ res, moveMapIn2048Rule
           [[None; Some 128; Some 128]; [Some 2; None; Some 2]]%Z Down = Ok res.
Proof.
  assert (Hrect : rectangular [[None; Some 128; Some 128]; [Some 2; None; Some 2]]%Z 2 3)
    by (split; [reflexivity|repeat constructor]).
  apply (proj1 (proj2 (move_compacts _ 2 3 Down) Hrect)); lia.
Defined.

(** * The ceiling and the win target *)

Lemma reached_spec (map : list (list (option Z))) (t : Z) :
  reached map t = true ↔ ∃ row v, row ∈ map ∧ Some v ∈ row ∧ (t ≤ v)%Z.
Proof.
  unfold reached. rewrite existsb_exists. split.
  - intros (row & Hrow & Hex). apply existsb_exists in Hex as ([v|] & Hv & Hge); [|done].
    exists row, v. rewrite <-!list_elem_of_In in *. split; [done|]. split; [done|lia].
  - intros (row & v & Hrow & Hv & Hge). exists row.
    rewrite <-list_elem_of_In. split; [done|].
    apply existsb_exists. exists (Some v). rewrite <-list_elem_of_In. split; [done|lia].
Qed.

(** C5, as the code has it: the ceiling of the row step is the constant
    [TARGET_TILE] = 128 and no input of the engine: [moveRowLeft] is the scan of
    the specification at the ceiling 128, two equal tiles merge exactly when
    their double is at most 128, and no merge gives more than 128.  Only
    [reached] takes its target as an argument: it holds exactly when some tile
    is at least the target it is given. *)
Theorem ceiling_is_target_tile :
  TARGET_TILE = 128%Z ∧
  (∀ row : list (option Z),
     row_result (moveRowLeft row) = spec_row 128 row ∧
     row_gained (moveRowLeft row) = sumZ (merged_values (spec_scan 128 None (tiles row))) ∧
     ∀ v, Merged v ∈ spec_scan 128 None (tiles row) → (2 * v ≤ 128)%Z) ∧
  (∀ v : Z,
     row_result (moveRowLeft [Some v; Some v]) =
       if (2 * v <=? 128)%Z then [Some (2 * v)%Z; None] else [Some v; Some v]) ∧
  (∀ (map : list (list (option Z))) (t : Z),
     reached map t = true ↔ ∃ row v, row ∈ map ∧ Some v ∈ row ∧ (t ≤ v)%Z).
Proof.
  split; [done|]. split; [|split].
  - intros row. split; [apply moveRowLeft_result|]. split.
    + by rewrite moveRowLeft_gained, sum_gain_merged.
    + intros v Hv. by apply (spec_scan_merged 128) in Hv as [? _].
  - intros v. rewrite moveRowLeft_result. unfold spec_row, tiles. csimpl.
    change TARGET_TILE with 128%Z. rewrite Z.eqb_refl. simpl.
    by destruct (2 * v <=? 128)%Z.
  - apply reached_spec.
Qed.

Lemma ceiling_is_target_tile_witness : (2 * 64 ≤ 128)%Z.
Proof.
  apply (proj2 (proj2 (proj1 (proj2 ceiling_is_target_tile) [Some 64; Some 64]%Z)) 64%Z).
  vm_compute. left.
Defined.

(** C5 as stated fails: the row step cannot be given the ceiling 64.  On the
    row [64, 64, 64, null] the scan of the specification at the ceiling 64
    merges nothing, the code merges the first two tiles into 128, a tile above
    64, whatever target [reached] is called with. *)
Lemma ceiling_not_configurable :
  ∃ (t : Z) (row : list (option Z)),
    Forall (fun v => v ≤ t)%Z (tiles row) ∧
    spec_row t row = [Some 64; Some 64; Some 64; None]%Z ∧
    row_result (moveRowLeft row) = [Some 128; Some 64; None; None]%Z ∧
    ¬ Forall (fun v => v ≤ t)%Z (tiles (row_result (moveRowLeft row))).
Proof.
  exists 64%Z, [Some 64; Some 64; Some 64; None]%Z.
  split; [repeat constructor; vm_compute; discriminate|].
  split; [reflexivity|]. split; [reflexivity|].
  intros H. apply Forall_cons in H as [H _]. vm_compute in H. by apply H.
Qed.

(** * Totality *)

(** C9, as the code has it: on a rectangular grid with at least one row and at
    least one column the move returns a result in each of the four directions,
    without a [TypeError] and with every read of the two rotations inside the
    grid.  In the row step the reads [out[i]] of the comparison are inside
    [out]; the padding reads [arr[i]] can pass the end of [arr], and the code
    turns what they read into an empty cell. *)
Theorem move_total_nonempty (G : list (list (option Z))) (R C : nat) (D : Direction) :
  rectangular G R C → 0 < R → 0 < C →
  (∃ res, moveMapIn2048Rule G D = Ok res ∧ rectangular (result res) R C) ∧
  (∀ (row : list (option Z)) (i : nat), i < length row →
     is_Some (row_result (moveRowLeft row) !! i) ∧
     row_result (moveRowLeft row) !! i = Some (nullish (moveRowLeft_arr row !! i)) ∧
     (moveRowLeft_arr row !! i = None → row_result (moveRowLeft row) !! i = Some None)).
Proof.
  intros Hrect HR HC. split.
  - exists (move_rect D R C G). split; [by apply move_total|].
    by apply move_rect_rectangular.
  - intros row i Hi.
    assert (Hout : row_result (moveRowLeft row) !! i
                   = Some (nullish (moveRowLeft_arr row !! i))).
    { unfold moveRowLeft. cbn [row_result]. fold (moveRowLeft_arr row).
      by apply (lookup_tab (length row) (fun i => nullish (moveRowLeft_arr row !! i))). }
    split; [by rewrite Hout|]. split; [done|]. intros Harr. by rewrite Hout, Harr.
Qed.

Lemma move_total_nonempty_witness :
  ∃ res, moveMapIn2048Rule [[Some 2; Some 2]; [None; Some 4]]%Z Up = Ok res ∧
         rectangular (result res) 2 2.
Proof.
  assert (Hrect : rectangular [[Some 2; Some 2]; [None; Some 4]]%Z 2 2)
    by (split; [reflexivity|repeat constructor]).
  apply (proj1 (move_total_nonempty _ 2 2 Up Hrect ltac:(lia) ltac:(lia))).
Defined.

(** C9 as stated fails twice.  The grid [[]] has one row and all its rows
    have the same length, and moving it up throws: the quarter turn of a grid
    without columns is a grid without rows, and the rotation back reads
    [map[0].length] of it.  And the row step does read past the end of an
    array: for the row [2, 2, null, null] the array [arr] is [4, null], and the
    padding reads [arr[2]]. *)
Lemma move_throws_without_columns :
  rectangular [[]] 1 0 ∧
  rotateMap [[]] (rotateMapDeg Up) = Ok [] ∧
  moveMapIn2048Rule [[]] Up = Raise TypeError ∧
  moveRowLeft_arr [Some 2; Some 2; None; None]%Z = [Some 4; None]%Z ∧
  2 < length [Some 2; Some 2; None; None]%Z ∧
  moveRowLeft_arr [Some 2; Some 2; None; None]%Z !! 2 = None.
Proof.
  split; [split; [reflexivity|repeat constructor]|].
  split; [reflexivity|]. split; [reflexivity|]. split; [reflexivity|].
  split; [simpl; lia|reflexivity].
Qed.

(** * More on the scan: sums, counts, targets *)

Section ScanMore.
Variable t : Z.
Implicit Types (p : option Z) (l : list Z) (map : list (list (option Z))).

Lemma sumZ_perm (l1 l2 : list Z) : l1 ≡ₚ l2 → sumZ l1 = sumZ l2.
Proof.
  unfold sumZ. induction 1 as [|x l1 l2 _ IH|x y l|l1 l2 l3 _ IH1 _ IH2]; simpl; lia.
Qed.

Lemma spec_scan_sum p l :
  sumZ (value <$> spec_scan t p l) = sumZ (slot p ++ l).
Proof.
  revert p. induction l as [|x l IH]; intros p; csimpl.
  - destruct p; csimpl; by rewrite ?app_nil_r.
  - destruct p as [q|]; csimpl; [|apply (IH (Some x))].
    destruct ((q =? x)%Z && (2 * x <=? t)%Z) eqn:Hm; csimpl.
    + apply andb_true_iff in Hm as [Hq _]. apply Z.eqb_eq in Hq as ->.
      specialize (IH None). unfold sumZ in *. csimpl in *. lia.
    + specialize (IH (Some x)). unfold sumZ in *. csimpl in *. lia.
Qed.

Lemma spec_scan_merges p l :
  length (spec_scan t p l) + length (merged_values (spec_scan t p l))
  = length (slot p) + length l.
Proof.
  unfold merged_values. revert p. induction l as [|x l IH]; intros p; csimpl.
  - by destruct p.
  - destruct p as [q|]; csimpl; [|apply (IH (Some x))].
    destruct ((q =? x)%Z && (2 * x <=? t)%Z).
    + rewrite filter_cons_True by done. specialize (IH None). csimpl in *. lia.
    + rewrite filter_cons_False by done. specialize (IH (Some x)). csimpl in *. lia.
Qed.

(** A tile at or above a target that is not negative stays at or above it. *)
Lemma spec_scan_target p l (t0 : Z) :
  (0 ≤ t0)%Z →
  (∃ v, v ∈ slot p ++ l ∧ (t0 ≤ v)%Z) →
  ∃ w, w ∈ value <$> spec_scan t p l ∧ (t0 ≤ w)%Z.
Proof.
  intros Ht0. revert p. induction l as [|x l IH]; intros p (v & Hv & Hle); csimpl.
  - destruct p as [q|]; csimpl in *; [|by apply elem_of_nil in Hv].
    exists v. by rewrite ?app_nil_r in Hv.
  - assert (Hrest : ∀ q, v ∈ slot q ++ l →
      ∃ w, w ∈ value <$> spec_scan t q l ∧ (t0 ≤ w)%Z).
    { intros q Hq. apply IH. by exists v. }
    destruct p as [q|]; csimpl in *; [|by apply (Hrest (Some x))].
    destruct ((q =? x)%Z && (2 * x <=? t)%Z) eqn:Hm; csimpl.
    + apply andb_true_iff in Hm as [Hq _]. apply Z.eqb_eq in Hq as ->.
      apply elem_of_cons in Hv as [->|Hv]; [exists (2 * x)%Z; split; [by left|lia]|].
      apply elem_of_cons in Hv as [->|Hv]; [exists (2 * x)%Z; split; [by left|lia]|].
      destruct (Hrest None Hv) as (w & Hw & ?). exists w. split; [by right|done].
    + apply elem_of_cons in Hv as [->|Hv]; [exists q; split; [by left|done]|].
      destruct (Hrest (Some x) Hv) as (w & Hw & ?). exists w. split; [by right|done].
Qed.

(** A property of tiles that doubling under the ceiling keeps. *)
Lemma spec_scan_keeps (P : Z → Prop) p l :
  (∀ v, P v → (2 * v ≤ t)%Z → P (2 * v)%Z) →
  Forall P (slot p ++ l) → Forall P (value <$> spec_scan t p l).
Proof.
  intros Hdouble. revert p. induction l as [|x l IH]; intros p Hl; csimpl.
  - destruct p; csimpl in *; [|done]. by rewrite ?app_nil_r in Hl.
  - destruct p as [q|]; csimpl in *; [|by apply (IH (Some x))].
    apply Forall_cons in Hl as [Hq Hl]. apply Forall_cons in Hl as [Hx Hl].
    destruct ((q =? x)%Z && (2 * x <=? t)%Z) eqn:Hm; csimpl.
    + apply andb_true_iff in Hm as [_ Hm]. apply Z.leb_le in Hm.
      apply Forall_cons. split; [by apply Hdouble|by apply (IH None)].
    + apply Forall_cons. split; [done|]. apply (IH (Some x)). by apply Forall_cons.
Qed.

Lemma emitted_sum map : sumZ (value <$> emitted t map) = sumZ (grid_tiles map).
Proof.
  unfold grid_tiles, emitted. rewrite tiles_concat.
  induction map as [|row map IH]; csimpl; [done|].
  by rewrite fmap_app, !sumZ_app, IH, (spec_scan_sum None).
Qed.

Lemma emitted_merges map :
  length (emitted t map) + length (merged_values (emitted t map))
  = length (grid_tiles map).
Proof.
  unfold grid_tiles, emitted, merged_values. rewrite tiles_concat.
  induction map as [|row map IH]; csimpl; [done|].
  rewrite filter_app, fmap_app, !length_app.
  pose proof (spec_scan_merges None (tiles row)) as Hrow.
  unfold merged_values in Hrow. simpl in Hrow. lia.
Qed.

Lemma emitted_target map (t0 : Z) :
  (0 ≤ t0)%Z →
  (∃ v, v ∈ grid_tiles map ∧ (t0 ≤ v)%Z) →
  ∃ w, w ∈ value <$> emitted t map ∧ (t0 ≤ w)%Z.
Proof.
  intros Ht0. unfold grid_tiles, emitted. rewrite tiles_concat.
  induction map as [|row map IH]; csimpl; intros (v & Hv & Hle).
  - by apply elem_of_nil in Hv.
  - setoid_rewrite fmap_app. setoid_rewrite elem_of_app.
    apply elem_of_app in Hv as [Hv|Hv].
    + destruct (spec_scan_target None (tiles row) t0 Ht0) as (w & Hw & ?);
        [by exists v|]. exists w. auto.
    + destruct IH as (w & Hw & ?); [by exists v|]. exists w. auto.
Qed.

Lemma emitted_keeps (P : Z → Prop) map :
  (∀ v, P v → (2 * v ≤ t)%Z → P (2 * v)%Z) →
  Forall P (grid_tiles map) → Forall P (value <$> emitted t map).
Proof.
  intros Hdouble. unfold grid_tiles, emitted. rewrite tiles_concat.
  induction map as [|row map IH]; csimpl; [done|].
  rewrite fmap_app, !Forall_app. intros [Hrow Hmap]. split; [|by apply IH].
  by apply (spec_scan_keeps P None).
Qed.
End ScanMore.

Lemma elem_of_concat {A : Type} (x : A) (ls : list (list A)) :
  x ∈ concat ls ↔ ∃ l, x ∈ l ∧ l ∈ ls.
Proof.
  induction ls as [|l ls IH]; simpl.
  - split; [by intros ?%elem_of_nil|by intros (l & _ & ?%elem_of_nil)].
  - rewrite elem_of_app, IH. split.
    + intros [Hx|(l' & Hx & Hl')]; [exists l; split; [done|by left]|].
      exists l'. split; [done|by right].
    + intros (l' & Hx & [->|Hl']%elem_of_cons); [by left|right; by exists l'].
Qed.

Lemma reached_tiles (map : list (list (option Z))) (t : Z) :
  reached map t = true ↔ ∃ v, v ∈ grid_tiles map ∧ (t ≤ v)%Z.
Proof.
  rewrite reached_spec. unfold grid_tiles, tiles. split.
  - intros (row & v & Hrow & Hv & Hle). exists v. split; [|done].
    apply list_elem_of_omap. exists (Some v). split; [|done].
    apply elem_of_concat. by exists row.
  - intros (v & Hv & Hle).
    apply list_elem_of_omap in Hv as ([w|] & Hin & [= ->]).
    apply elem_of_concat in Hin as (row & Hin & Hrow). by exists row, v.
Qed.

(** * What a move keeps *)

Section MoveKeeps.
Implicit Types (map : list (list (option Z))) (R C r c : nat) (D : Direction).

Lemma tiles_nil_replicate (row : list (option Z)) :
  tiles row = [] → row = replicate (length row) None.
Proof.
  unfold tiles. induction row as [|[v|] row IH]; csimpl; [done..|].
  intros Hrow. by rewrite <-IH.
Qed.

Lemma spec_row_no_tiles (t : Z) (row : list (option Z)) :
  tiles row = [] → spec_row t row = row.
Proof.
  intros Hrow. unfold spec_row, pad. rewrite Hrow. simpl.
  rewrite Nat.sub_0_r. symmetry. by apply tiles_nil_replicate.
Qed.

Lemma grid_no_tiles (t : Z) map : grid_tiles map = [] → spec_row t <$> map = map.
Proof.
  unfold grid_tiles. rewrite tiles_concat.
  induction map as [|row map IH]; csimpl; [done|].
  intros [Hrow Hmap]%app_eq_nil. by rewrite IH, spec_row_no_tiles.
Qed.

Lemma merged_values_none (es : list Emitted) :
  Forall (fun e => is_merged e = false) es → merged_values es = [].
Proof.
  unfold merged_values. induction 1 as [|[v|v] es He _ IH]; [done|..].
  - by rewrite filter_cons_False by done.
  - done.
Qed.

Lemma move_rect_count D R C map :
  rectangular map R C →
  length (grid_tiles (result (move_rect D R C map)))
  + length (merged_values (emitted TARGET_TILE (rot (rotateMapDeg D) R C map)))
  = length (grid_tiles map).
Proof.
  intros Hrect.
  rewrite (Permutation_length (move_rect_tiles D _ _ _ Hrect)), length_fmap.
  rewrite emitted_merges.
  apply Permutation_length, grid_tiles_rot. done.
Qed.
End MoveKeeps.

(** X1: a move conserves the sum of the tiles of a grid whose tiles are
    positive, in every direction: a merge puts one tile [2 * v] in the place of
    two tiles [v], and every other tile is passed on.  The move returns on
    every grid that has a row and a column. *)
Theorem move_conserves_sum (G : list (list (option Z))) (R C : nat) (D : Direction) :
  rectangular G R C →
  Forall (fun v => 0 < v)%Z (grid_tiles G) →
  (0 < R → 0 < C → ∃ res, moveMapIn2048Rule G D = Ok res) ∧
  (∀ res, moveMapIn2048Rule G D = Ok res →
     Forall (fun v => 0 < v)%Z (grid_tiles (result res)) ∧
     sumZ (grid_tiles (result res)) = sumZ (grid_tiles G)).
Proof.
  intros Hrect Hpos. split.
  - intros HR HC. eexists. by apply (move_total _ R C).
  - intros res Hres. apply (move_ok_iff _ R C) in Hres as (_ & _ & ->); [|done].
    pose proof (move_rect_tiles D _ _ _ Hrect) as Hperm.
    pose proof (grid_tiles_rot (rotateMapDeg D) _ _ _ Hrect) as Hrot.
    split.
    + rewrite Hperm.
      apply (emitted_keeps TARGET_TILE (fun v => 0 < v)%Z); [intros v Hv _; lia|].
      by rewrite Hrot.
    + rewrite (sumZ_perm _ _ Hperm), emitted_sum. by apply sumZ_perm.
Qed.

Lemma move_conserves_sum_witness :
  ∃ res, moveMapIn2048Rule
           [[Some 2; Some 2; None]; [Some 4; None; Some 4]]%Z Right = Ok res.
Proof.
  assert (Hrect : rectangular [[Some 2; Some 2; None]; [Some 4; None; Some 4]]%Z 2 3)
    by (split; [reflexivity|repeat constructor]).
  assert (Hpos : Forall (fun v => 0 < v)%Z
                   (grid_tiles [[Some 2; Some 2; None]; [Some 4; None; Some 4]]%Z))
    by (repeat constructor).
  apply (proj1 (move_conserves_sum _ 2 3 Right Hrect Hpos)); lia.
Defined.

(** X2: a move never adds a tile: the returned grid has as many tiles as the
    input less one for each merge in the rows of the rotated grid; and when
    all tiles are positive it has as many tiles as the input exactly when
    [gained] is 0. *)
Theorem move_tile_count (G : list (list (option Z))) (R C : nat) (D : Direction) :
  rectangular G R C →
  (0 < R → 0 < C → ∃ res, moveMapIn2048Rule G D = Ok res) ∧
  (∀ res, moveMapIn2048Rule G D = Ok res →
     (∃ rotated, rotateMap G (rotateMapDeg D) = Ok rotated ∧
        length (grid_tiles (result res))
        + length (merged_values (emitted TARGET_TILE rotated))
        = length (grid_tiles G)) ∧
     length (grid_tiles (result res)) ≤ length (grid_tiles G) ∧
     (Forall (fun v => 0 < v)%Z (grid_tiles G) →
        gained res = 0%Z ↔ length (grid_tiles (result res)) = length (grid_tiles G))).
Proof.
  intros Hrect. split.
  - intros HR HC. eexists. by apply (move_total _ R C).
  - intros res Hres. apply (move_ok_iff _ R C) in Hres as (HR & _ & ->); [|done].
    pose proof (move_rect_count D _ _ _ Hrect) as Hcount.
    split; [|split].
    + eexists. split; [by apply (rotateMap_rect _ R C)|done].
    + lia.
    + intros Hpos. rewrite move_rect_gained. split.
      * intros Hzero.
        rewrite merged_values_none in Hcount; [cbn [length] in Hcount; lia|].
        apply emitted_gain_zero; [|done].
        by rewrite (grid_tiles_rot _ _ _ _ Hrect).
      * intros Heq. rewrite sum_gain_merged.
        destruct (merged_values _) as [|x xs]; [done|cbn [length] in Hcount; lia].
Qed.

Lemma move_tile_count_witness :
  ∃ res, moveMapIn2048Rule
           [[Some 2; Some 2]; [Some 4; Some 8]]%Z Left = Ok res.
Proof.
  assert (Hrect : rectangular [[Some 2; Some 2]; [Some 4; Some 8]]%Z 2 2)
    by (split; [reflexivity|repeat constructor]).
  apply (proj1 (move_tile_count _ 2 2 Left Hrect)); lia.
Defined.

(** X3: a move does not lose a target that was reached: for a target that is
    not negative, when some tile of the grid is at least the target, some tile
    of the returned grid is. *)
Theorem move_keeps_reached (G : list (list (option Z))) (R C : nat) (D : Direction) (t : Z) :
  rectangular G R C → (0 ≤ t)%Z →
  (0 < R → 0 < C → ∃ res, moveMapIn2048Rule G D = Ok res) ∧
  (∀ res, moveMapIn2048Rule G D = Ok res →
     reached G t = true → reached (result res) t = true).
Proof.
  intros Hrect Ht. split.
  - intros HR HC. eexists. by apply (move_total _ R C).
  - intros res Hres. apply (move_ok_iff _ R C) in Hres as (_ & _ & ->); [|done].
    rewrite !reached_tiles. intros (v & Hv & Hle).
    setoid_rewrite (move_rect_tiles D _ _ _ Hrect).
    apply emitted_target; [done|]. exists v. split; [|done].
    by rewrite (grid_tiles_rot _ _ _ _ Hrect).
Qed.

Lemma move_keeps_reached_witness :
  ∃ res, moveMapIn2048Rule
           [[Some 128; Some 2]; [Some 2; None]]%Z Down = Ok res.
Proof.
  assert (Hrect : rectangular [[Some 128; Some 2]; [Some 2; None]]%Z 2 2)
    by (split; [reflexivity|repeat constructor]).
  apply (proj1 (move_keeps_reached _ 2 2 Down 128%Z Hrect ltac:(lia))); lia.
Defined.

(** X4: a grid without a tile is returned as it is by a move in every
    direction, not moved and with no gain. *)
Theorem move_without_tiles (G : list (list (option Z))) (R C : nat) (D : Direction) :
  rectangular G R C → 0 < R → 0 < C → grid_tiles G = [] →
  moveMapIn2048Rule G D = Ok (mkMove G false 0).
Proof.
  intros Hrect HR HC Hnil. rewrite (move_total _ R C) by done. f_equal.
  pose proof (grid_tiles_rot (rotateMapDeg D) _ _ _ Hrect) as Hrot.
  rewrite Hnil in Hrot. apply Permutation_nil_r in Hrot.
  assert (Hm : isMoved (move_rect D R C G) = false).
  { unfold move_rect. cbv zeta. cbn [isMoved].
    apply moveLeft_isMoved_false. rewrite moveLeft_result. by apply grid_no_tiles. }
  assert (Hres : result (move_rect D R C G) = G) by by apply move_rect_unchanged.
  assert (Hg : gained (move_rect D R C G) = 0%Z).
  { rewrite move_rect_gained.
    pose proof (emitted_merges TARGET_TILE (rot (rotateMapDeg D) R C G)) as Hlen.
    rewrite Hrot in Hlen. cbn [length] in Hlen.
    destruct (emitted _ _); [done|cbn [length] in Hlen; lia]. }
  destruct (move_rect D R C G). simpl in *. by subst.
Qed.

Lemma move_without_tiles_witness :
  moveMapIn2048Rule (emptyMap 4 4) Up = Ok (mkMove (emptyMap 4 4) false 0).
Proof.
  apply (move_without_tiles (emptyMap 4 4) 4 4 Up).
  - split; [reflexivity|repeat constructor].
  - lia.
  - lia.
  - reflexivity.
Defined.

(** * The lines of a move and the composition of rotations *)

Section Lines.
Implicit Types (map : list (list (option Z))) (R C r c k : nat) (D : Direction).

(** A row of the grid after the row step, read cell by cell. *)
Lemma get_spec_row (t : Z) map k (row : list (option Z)) :
  map !! k = Some row →
  tab (length row) (fun c => get (spec_row t <$> map) k c) = spec_row t row.
Proof.
  intros Hrow. rewrite <-(spec_row_length t row). apply tab_lookup.
  intros c x Hx. unfold get. rewrite list_lookup_fmap, Hrow. simpl. by rewrite Hx.
Qed.

Lemma move_rect_line D R C map k :
  rectangular map R C → k < lines D R C →
  line D R C (result (move_rect D R C map)) k
  = spec_row TARGET_TILE (line D R C map k).
Proof.
  intros Hrect Hk. rewrite move_rect_result.
  set (X := rot (rotateMapDeg D) R C map).
  destruct D; simpl in Hk; unfold line; simpl rot_rows; simpl rot_cols;
    simpl revertMapDeg; cbn [rot].
  - (* up *)
    assert (HX : X !! (C - k - 1) = Some (tab R (fun r => get map r k))).
    { unfold X. simpl. rewrite lookup_tab by lia. f_equal.
      apply tab_ext. intros r _. f_equal. lia. }
    rewrite <-(get_spec_row TARGET_TILE X _ _ HX), length_tab.
    apply tab_ext. intros r Hr. by rewrite get_tab by lia.
  - (* down *)
    assert (HX : X !! k = Some (tab R (fun r => get map (R - r - 1) k))).
    { unfold X. simpl. by rewrite lookup_tab by lia. }
    rewrite <-(get_spec_row TARGET_TILE X _ _ HX), length_tab.
    apply tab_ext. intros r Hr. rewrite get_tab by lia. f_equal. lia.
  - (* left *)
    destruct (lookup_lt_is_Some_2 map k) as [row Hrow]; [destruct Hrect; lia|].
    pose proof (rectangular_lookup _ _ _ _ _ Hrect Hrow) as Hlen.
    assert (tab C (fun c => get map k c) = row) as ->.
    { rewrite <-Hlen. apply tab_lookup. intros c x Hx. unfold get. by rewrite Hrow, Hx. }
    rewrite <-Hlen. by apply get_spec_row.
  - (* right *)
    assert (HX : X !! (R - k - 1) = Some (tab C (fun c => get map k (C - c - 1)))).
    { unfold X. simpl. rewrite lookup_tab by lia. f_equal.
      apply tab_ext. intros c _. f_equal. lia. }
    rewrite <-(get_spec_row TARGET_TILE X _ _ HX), length_tab.
    apply tab_ext. intros c Hc. rewrite get_tab by lia. f_equal. lia.
Qed.

Lemma rot_compose a b map R C :
  rectangular map R C →
  rot b (rot_rows a R C) (rot_cols a R C) (rot a R C map) = rot (add_deg a b) R C map.
Proof.
  intros Hrect.
  destruct a, b; simpl; try done;
    try (etrans; [|apply (grid_tab map R C Hrect)]);
    apply tab_ext; intros i Hi; apply tab_ext; intros j Hj;
    rewrite ?get_tab by lia; f_equal; lia.
Qed.
End Lines.

(** X5: a move moves every line of the grid as [moveRowLeft] moves a row:
    read from the wall of the direction (rows from the left for left, from the
    right for right, columns from the top for up, from the bottom for down),
    each line of the returned grid is the row that [moveRowLeft] returns for
    the same line of the input. *)
Theorem move_lines (G : list (list (option Z))) (R C : nat) (D : Direction) :
  rectangular G R C →
  (0 < R → 0 < C → ∃ res, moveMapIn2048Rule G D = Ok res) ∧
  (∀ res, moveMapIn2048Rule G D = Ok res →
     ∀ k, k < lines D R C →
       line D R C (result res) k = row_result (moveRowLeft (line D R C G k))).
Proof.
  intros Hrect. split.
  - intros HR HC. eexists. by apply (move_total _ R C).
  - intros res Hres k Hk.
    apply (move_ok_iff _ R C) in Hres as (_ & _ & ->); [|done].
    rewrite moveRowLeft_result. exact (move_rect_line D R C G k Hrect Hk).
Qed.

Lemma move_lines_witness :
  ∃ res, moveMapIn2048Rule
           [[Some 2; None; Some 4]; [Some 2; Some 4; Some 4]]%Z Up = Ok res.
Proof.
  assert (Hrect : rectangular [[Some 2; None; Some 4]; [Some 2; Some 4; Some 4]]%Z 2 3)
    by (split; [reflexivity|repeat constructor]).
  apply (proj1 (move_lines _ 2 3 Up Hrect)); lia.
Defined.

(** X6: rotations compose by adding their degrees modulo 360: on a
    rectangular grid with a row and a column, rotating by [a] and then by [b]
    returns what the rotation by [a + b] returns. *)
Theorem rotate_compose (G : list (list (option Z))) (R C : nat) (a b : Degree) :
  rectangular G R C → 0 < R → 0 < C →
  ∃ G1, rotateMap G a = Ok G1 ∧ rotateMap G1 b = rotateMap G (add_deg a b).
Proof.
  intros Hrect HR HC. exists (rot a R C G). split; [by apply rotateMap_rect|].
  rewrite (rotateMap_rect _ _ _ _ (rot_rectangular a _ _ _ Hrect))
    by (destruct a; simpl; lia).
  rewrite (rotateMap_rect _ _ _ (add_deg a b) Hrect HR).
  f_equal. by apply rot_compose.
Qed.

Lemma rotate_compose_witness :
  ∃ G1, rotateMap [[Some 1; Some 2; Some 3]; [Some 4; Some 5; Some 6]]%Z Deg90 = Ok G1 ∧
        rotateMap G1 Deg180
        = rotateMap [[Some 1; Some 2; Some 3]; [Some 4; Some 5; Some 6]]%Z (add_deg Deg90 Deg180).
Proof.
  assert (Hrect : rectangular [[Some 1; Some 2; Some 3]; [Some 4; Some 5; Some 6]]%Z 2 3)
    by (split; [reflexivity|repeat constructor]).
  apply (rotate_compose _ 2 3 Deg90 Deg180 Hrect); lia.
Defined.

(** * Empty cells *)

Section Empties.
Implicit Types (map : list (list (option Z))) (row : list (option Z)) (R C i j n : nat).

Lemma null_at_true row j : null_at row j = true ↔ row !! j = Some None.
Proof.
  unfold null_at. destruct (row !! j) as [[v|]|]; split; done.
Qed.

Lemma first_row_length_rect map R C :
  rectangular map R C → 0 < R → first_row_length map = C.
Proof.
  intros Hrect HR. unfold first_row_length.
  destruct (lookup_lt_is_Some_2 map 0) as [row0 Hrow0]; [destruct Hrect; lia|].
  rewrite Hrow0. by apply (rectangular_lookup _ _ _ _ _ Hrect Hrow0).
Qed.

Lemma empties_elem map i j :
  (i, j) ∈ empties map ↔
  ∃ row, map !! i = Some row ∧ j < first_row_length map ∧ row !! j = Some None.
Proof.
  unfold empties. rewrite list_elem_of_In, in_flat_map. split.
  - intros (i' & Hi' & Hin). destruct (map !! i') as [row|] eqn:Hrow; [|done].
    apply in_flat_map in Hin as (j' & Hj' & Hin).
    destruct (null_at row j') eqn:Hnull; [|done].
    destruct Hin as [[= <- <-]|[]]. exists row.
    apply in_seq in Hj'. apply null_at_true in Hnull. split; [done|]. split; [lia|done].
  - intros (row & Hrow & Hj & Hnull). exists i. split.
    + apply in_seq. apply lookup_lt_Some in Hrow. lia.
    + rewrite Hrow. apply in_flat_map. exists j. split; [apply in_seq; lia|].
      apply null_at_true in Hnull. rewrite Hnull. by left.
Qed.

Lemma tiles_app (l1 l2 : list (option Z)) : tiles (l1 ++ l2) = tiles l1 ++ tiles l2.
Proof. unfold tiles. apply omap_app. Qed.

Lemma grid_tiles_app (g1 g2 : list (list (option Z))) :
  grid_tiles (g1 ++ g2) = grid_tiles g1 ++ grid_tiles g2.
Proof. unfold grid_tiles. by rewrite concat_app, tiles_app. Qed.

Lemma grid_tiles_cons row map : grid_tiles (row :: map) = tiles row ++ grid_tiles map.
Proof. unfold grid_tiles. simpl. apply tiles_app. Qed.

(** In the first [n] cells of a row, the cells listed and the tiles add up
    to [n]. *)
Lemma row_empties_count row (i n : nat) :
  n ≤ length row →
  length (flat_map (fun j => if null_at row j then [(i, j)] else []) (seq 0 n))
  + length (tiles (take n row)) = n.
Proof.
  induction n as [|n IH]; intros Hn; [done|].
  destruct (lookup_lt_is_Some_2 row n) as [x Hx]; [lia|].
  rewrite seq_S, flat_map_app, length_app, (take_S_r _ _ _ Hx), tiles_app, length_app.
  specialize (IH ltac:(lia)).
  assert (Hnull : null_at row n = match x with Some _ => false | None => true end)
    by (unfold null_at; rewrite Hx; by destruct x).
  simpl. rewrite Hnull. destruct x as [v|]; simpl; lia.
Qed.

Lemma empties_count_take map R C n :
  rectangular map R C → n ≤ R →
  length (flat_map (fun i =>
    match map !! i with
    | Some row =>
        flat_map (fun j => if null_at row j then [(i, j)] else []) (seq 0 C)
    | None => []
    end) (seq 0 n))
  + length (grid_tiles (take n map)) = n * C.
Proof.
  intros Hrect. induction n as [|n IH]; intros Hn; [done|].
  destruct (lookup_lt_is_Some_2 map n) as [row Hrow]; [destruct Hrect; lia|].
  pose proof (rectangular_lookup _ _ _ _ _ Hrect Hrow) as Hlen.
  rewrite seq_S, flat_map_app, length_app, (take_S_r _ _ _ Hrow).
  rewrite grid_tiles_app, length_app, grid_tiles_cons, length_app.
  specialize (IH ltac:(lia)). simpl. rewrite Hrow, !app_nil_r.
  pose proof (row_empties_count row n C ltac:(lia)) as Hcount.
  rewrite take_ge in Hcount by lia. lia.
Qed.

Lemma empties_count map R C :
  rectangular map R C → length (empties map) + length (grid_tiles map) = R * C.
Proof.
  intros Hrect. destruct (decide (0 < R)) as [HR|HR].
  - unfold empties. rewrite (first_row_length_rect _ _ _ Hrect HR).
    pose proof (empties_count_take map R C R Hrect ltac:(lia)) as Hcount.
    destruct Hrect as [Hlen _]. rewrite Hlen.
    rewrite take_ge in Hcount by lia. done.
  - assert (R = 0) as -> by lia. by rewrite (rectangular_nil _ _ Hrect).
Qed.
End Empties.

(** X7: [empties] lists the empty cells of a rectangular grid: a pair
    [(i, j)] is listed exactly when [i] is a row, [j] a column and the cell is
    [null]; the cells listed and the tiles together are all [R * C] cells; and
    the grid without rows has no empty cell. *)
Theorem empties_rectangular (map : list (list (option Z))) (R C : nat) :
  rectangular map R C →
  (∀ i j, (i, j) ∈ empties map ↔ i < R ∧ j < C ∧ get map i j = None) ∧
  length (empties map) + length (grid_tiles map) = R * C ∧
  empties [] = [].
Proof.
  intros Hrect. split; [|split; [by apply empties_count|done]].
  intros i j. rewrite empties_elem. split.
  - intros (row & Hrow & Hj & Hnull).
    assert (Hi : i < R) by (destruct Hrect as [<- _]; by apply lookup_lt_Some in Hrow).
    rewrite (first_row_length_rect _ _ _ Hrect) in Hj by lia.
    split; [done|]. split; [done|]. unfold get. by rewrite Hrow, Hnull.
  - intros (Hi & Hj & Hget).
    destruct (get_lookup _ _ _ _ _ Hrect Hi Hj) as (row & Hrow & Hcell).
    exists row. rewrite (first_row_length_rect _ _ _ Hrect) by lia.
    split; [done|]. split; [done|]. by rewrite Hcell, Hget.
Qed.

Lemma empties_rectangular_witness :
  length (empties [[Some 2; None]; [None; Some 4]]%Z)
  + length (grid_tiles [[Some 2; None]; [None; Some 4]]%Z) = 2 * 2.
Proof.
  assert (Hrect : rectangular [[Some 2; None]; [None; Some 4]]%Z 2 2)
    by (split; [reflexivity|repeat constructor]).
  apply (proj1 (proj2 (empties_rectangular _ 2 2 Hrect))).
Defined.

(** * Spawning a tile *)

Section Spawn.
Implicit Types (map : list (list (option Z))) (row : list (option Z)) (R C i j : nat) (v : Z).

Lemma set_cell_rectangular map R C i j v :
  rectangular map R C → rectangular (set_cell map i j v) R C.
Proof.
  intros Hrect. unfold set_cell. destruct (map !! i) as [row|] eqn:Hrow; [|done].
  pose proof (rectangular_lookup _ _ _ _ _ Hrect Hrow) as Hlen.
  destruct Hrect as [HR HC]. split; [by rewrite length_insert|].
  apply Forall_insert; [done|]. by rewrite length_insert.
Qed.

Lemma set_cell_shape map i j v : length <$> set_cell map i j v = length <$> map.
Proof.
  unfold set_cell. destruct (map !! i) as [row|] eqn:Hrow; [|done].
  rewrite list_fmap_insert, length_insert. apply list_insert_id.
  by rewrite list_lookup_fmap, Hrow.
Qed.

Lemma set_cell_get map row i j v i' j' :
  map !! i = Some row → j < length row →
  get (set_cell map i j v) i' j'
  = if decide (i' = i ∧ j' = j) then Some v else get map i' j'.
Proof.
  intros Hrow Hj. unfold set_cell, get. rewrite Hrow.
  pose proof (lookup_lt_Some _ _ _ Hrow) as Hi.
  destruct (decide (i' = i)) as [->|Hne].
  - rewrite list_lookup_insert_eq, Hrow by done.
    destruct (decide (j' = j)) as [->|Hnej].
    + rewrite list_lookup_insert_eq by done. by rewrite decide_True.
    + rewrite list_lookup_insert_ne by done. rewrite decide_False by tauto. done.
  - rewrite list_lookup_insert_ne by done. rewrite decide_False by tauto. done.
Qed.

Lemma set_cell_tiles map row i j v :
  map !! i = Some row → row !! j = Some None →
  grid_tiles (set_cell map i j v) ≡ₚ v :: grid_tiles map.
Proof.
  intros Hrow Hcell. unfold set_cell. rewrite Hrow.
  pose proof (lookup_lt_Some _ _ _ Hrow) as Hi.
  pose proof (lookup_lt_Some _ _ _ Hcell) as Hj.
  pose proof (take_drop_middle map i row Hrow) as Hmap.
  pose proof (take_drop_middle row j None Hcell) as Hr.
  rewrite (insert_take_drop map), (insert_take_drop row) by done.
  remember (take i map) as a. remember (drop (S i) map) as b.
  remember (take j row) as c. remember (drop (S j) row) as d.
  rewrite <-Hmap, <-Hr.
  rewrite !grid_tiles_app, !grid_tiles_cons, !tiles_app.
  change (tiles (Some v :: d)) with (v :: tiles d).
  change (tiles (None :: d)) with (tiles d).
  rewrite <-!(assoc_L (++)). cbn [app]. rewrite <-!Permutation_middle. done.
Qed.

(** A draw inside the list of empty cells names an empty cell, and [spawn]
    fills it. *)
Lemma spawn_pick map (pick : nat → nat) (small : bool) :
  pick (length (empties map)) < length (empties map) →
  ∃ i j row,
    empties map !! pick (length (empties map)) = Some (i, j) ∧
    map !! i = Some row ∧ row !! j = Some None ∧
    spawn map pick small = Ok (set_cell map i j (if small then 2 else 4)%Z, true).
Proof.
  intros Hpick.
  destruct (lookup_lt_is_Some_2 _ _ Hpick) as [[i j] Hij].
  pose proof (list_elem_of_lookup_2 _ _ _ Hij) as Hin.
  apply empties_elem in Hin as (row & Hrow & _ & Hcell).
  exists i, j, row. split; [done|]. split; [done|]. split; [done|].
  unfold spawn. destruct (empties map) as [|e es] eqn:He; [simpl in Hpick; lia|].
  by rewrite Hij.
Qed.
End Spawn.

(** X8: [spawn] on a grid without an empty cell returns [false] and leaves
    the grid as it is.  When the draw is an index of the list of empty cells,
    [spawn] returns [true] and the grid differs from the input in exactly one
    cell: a cell that was empty now holds the tile 2 or 4, every other cell
    and the length of every row are as before. *)
Theorem spawn_places (map : list (list (option Z))) (pick : nat → nat) (small : bool) :
  (empties map = [] → spawn map pick small = Ok (map, false)) ∧
  (pick (length (empties map)) < length (empties map) →
     ∃ i j map',
       spawn map pick small = Ok (map', true) ∧
       (i, j) ∈ empties map ∧
       (∃ row, map !! i = Some row ∧ row !! j = Some None) ∧
       get map' i j = Some (if small then 2 else 4)%Z ∧
       (∀ i' j', (i', j') ≠ (i, j) → get map' i' j' = get map i' j') ∧
       length <$> map' = length <$> map).
Proof.
  split.
  - intros He. unfold spawn. by rewrite He.
  - intros Hpick.
    destruct (spawn_pick map pick small Hpick) as (i & j & row & Hij & Hrow & Hcell & Hs).
    pose proof (lookup_lt_Some _ _ _ Hcell) as Hj.
    exists i, j, (set_cell map i j (if small then 2 else 4)%Z).
    split; [done|]. split; [by apply (list_elem_of_lookup_2 _ _ _ Hij)|].
    split; [by exists row|]. split; [|split].
    + rewrite (set_cell_get _ row) by done. by rewrite decide_True.
    + intros i' j' Hne. rewrite (set_cell_get _ row) by done.
      rewrite decide_False; [done|]. intros [-> ->]. done.
    + apply set_cell_shape.
Qed.

Lemma spawn_places_witness :
  ∃ i j map',
    spawn [[Some 2; None]; [None; Some 4]]%Z (fun n => n - 1) true = Ok (map', true) ∧
    (i, j) ∈ empties [[Some 2; None]; [None; Some 4]]%Z ∧
    (∃ row, [[Some 2; None]; [None; Some 4]]%Z !! i = Some row ∧ row !! j = Some None) ∧
    get map' i j = Some 2%Z ∧
    (∀ i' j', (i', j') ≠ (i, j) →
       get map' i' j' = get [[Some 2; None]; [None; Some 4]]%Z i' j') ∧
    length <$> map' = length <$> [[Some 2; None]; [None; Some 4]]%Z.
Proof.
  apply (proj2 (spawn_places [[Some 2; None]; [None; Some 4]]%Z (fun n => n - 1) true)).
  vm_compute. lia.
Defined.

(** X9: on a rectangular grid, a [spawn] whose draw is an index of the list of
    empty cells adds exactly one tile, 2 or 4: the grid keeps its dimensions,
    its tiles are the tiles of the input and the new tile, and it has one
    empty cell less.  The list of empty cells is empty exactly when all
    [R * C] cells hold a tile. *)
Theorem spawn_adds_tile (map : list (list (option Z))) (R C : nat)
    (pick : nat → nat) (small : bool) :
  rectangular map R C →
  (empties map = [] ↔ length (grid_tiles map) = R * C) ∧
  (pick (length (empties map)) < length (empties map) →
     ∃ map',
       spawn map pick small = Ok (map', true) ∧
       rectangular map' R C ∧
       grid_tiles map' ≡ₚ (if small then 2 else 4)%Z :: grid_tiles map ∧
       S (length (empties map')) = length (empties map)).
Proof.
  intros Hrect. pose proof (empties_count _ _ _ Hrect) as Hcount. split.
  - split.
    + intros He. rewrite He in Hcount. simpl in Hcount. done.
    + intros Hfull. destruct (empties map); [done|simpl in Hcount; lia].
  - intros Hpick.
    destruct (spawn_pick map pick small Hpick) as (i & j & row & Hij & Hrow & Hcell & Hs).
    exists (set_cell map i j (if small then 2 else 4)%Z).
    pose proof (set_cell_rectangular _ _ _ i j (if small then 2 else 4)%Z Hrect) as Hrect'.
    pose proof (set_cell_tiles _ _ _ _ (if small then 2 else 4)%Z Hrow Hcell) as Htiles.
    split; [done|]. split; [done|]. split; [done|].
    pose proof (empties_count _ _ _ Hrect') as Hcount'.
    apply Permutation_length in Htiles. simpl in Htiles. lia.
Qed.

Lemma spawn_adds_tile_witness :
  ∃ map',
    spawn [[Some 2; None]; [None; Some 4]]%Z (fun n => 0) false = Ok (map', true) ∧
    rectangular map' 2 2 ∧
    grid_tiles map' ≡ₚ 4%Z :: grid_tiles [[Some 2; None]; [None; Some 4]]%Z ∧
    S (length (empties map')) = length (empties [[Some 2; None]; [None; Some 4]]%Z).
Proof.
  assert (Hrect : rectangular [[Some 2; None]; [None; Some 4]]%Z 2 2)
    by (split; [reflexivity|repeat constructor]).
  apply (proj2 (spawn_adds_tile _ 2 2 (fun n => 0) false Hrect)).
  vm_compute. lia.
Defined.

(** * Room for the next tile *)

Section Room.
Implicit Types (map : list (list (option Z))) (row : list (option Z)) (R C : nat) (t : Z).

Lemma tiles_full row : length (tiles row) = length row → Some <$> tiles row = row.
Proof.
  unfold tiles. induction row as [|[v|] row IH]; csimpl; [done|..].
  - intros [= Hlen]. by rewrite IH.
  - intros Hlen. pose proof (tiles_length row) as Hle. unfold tiles in Hle. lia.
Qed.

(** A row whose scan emits as many tiles as the row has cells is full and
    merges nothing: the row step returns it as it is. *)
Lemma spec_row_full t row :
  length (spec_scan t None (tiles row)) = length row → spec_row t row = row.
Proof.
  intros Hlen.
  pose proof (spec_scan_length t None (tiles row)) as H1.
  pose proof (tiles_length row) as H2.
  pose proof (spec_scan_merges t None (tiles row)) as H3. simpl in H1, H3.
  assert (Hno : merged_values (spec_scan t None (tiles row)) = []).
  { destruct (merged_values _); [done|simpl in H3; lia]. }
  apply merged_values_nil, (spec_scan_no_merge t None) in Hno. simpl in Hno.
  unfold spec_row, pad. rewrite Hno.
  replace (length row - length (tiles row)) with 0 by lia.
  simpl. rewrite app_nil_r. apply tiles_full. lia.
Qed.

Lemma emitted_room t map C :
  Forall (fun row => length row = C) map →
  length (emitted t map) ≤ length map * C ∧
  (length (emitted t map) = length map * C → spec_row t <$> map = map).
Proof.
  unfold emitted. induction 1 as [|row map Hrow _ [IH1 IH2]]; csimpl; [done|].
  rewrite length_app.
  pose proof (spec_scan_length t None (tiles row)) as H1.
  pose proof (tiles_length row) as H2. simpl in H1.
  split; [lia|]. intros Hlen.
  rewrite IH2 by lia. rewrite spec_row_full by lia. done.
Qed.
End Room.

(** A move that changes the grid leaves an empty cell. *)
Lemma move_rect_room (D : Direction) (R C : nat) (map : list (list (option Z))) :
  rectangular map R C → isMoved (move_rect D R C map) = true →
  0 < length (empties (result (move_rect D R C map))).
Proof.
  intros Hrect Hmoved.
  pose proof (move_rect_rectangular D _ _ _ Hrect) as Hres.
  pose proof (empties_count _ _ _ Hres) as Hcount.
  pose proof (rot_rectangular (rotateMapDeg D) _ _ _ Hrect) as [HlenX HrowsX].
  destruct (emitted_room TARGET_TILE _ _ HrowsX) as [Hle Heq].
  rewrite (Permutation_length (move_rect_tiles D _ _ _ Hrect)), length_fmap in Hcount.
  rewrite HlenX in Hle, Heq.
  assert (Hdims : rot_rows (rotateMapDeg D) R C * rot_cols (rotateMapDeg D) R C = R * C)
    by (destruct D; simpl; lia).
  destruct (decide (length (emitted TARGET_TILE (rot (rotateMapDeg D) R C map)) = R * C))
    as [Hfull|Hnot]; [|lia].
  rewrite <-Hdims in Hfull. apply Heq in Hfull.
  unfold move_rect in Hmoved. cbv zeta in Hmoved. cbn [isMoved] in Hmoved.
  rewrite <-moveLeft_result in Hfull. apply moveLeft_isMoved_false in Hfull.
  congruence.
Qed.

(** X10: a move that reports [isMoved] leaves an empty cell in the grid it
    returns, so the [spawn] that follows an accepted move places a tile and
    returns [true], whatever is drawn. *)
Theorem moved_leaves_room (G : list (list (option Z))) (R C : nat) (D : Direction) :
  rectangular G R C →
  (0 < R → 0 < C → ∃ res, moveMapIn2048Rule G D = Ok res) ∧
  (∀ res, moveMapIn2048Rule G D = Ok res → isMoved res = true →
     0 < length (empties (result res)) ∧
     ∀ (pick : nat → nat) (small : bool), (∀ n, 0 < n → pick n < n) →
       ∃ map', spawn (result res) pick small = Ok (map', true)).
Proof.
  intros Hrect. split.
  - intros HR HC. eexists. by apply (move_total _ R C).
  - intros res Hres Hmoved.
    apply (move_ok_iff _ R C) in Hres as (_ & _ & ->); [|done].
    pose proof (move_rect_room D _ _ _ Hrect Hmoved) as Hroom.
    split; [done|]. intros pick small Hpick.
    destruct (spawn_pick _ pick small (Hpick _ Hroom)) as (i & j & row & _ & _ & _ & Hs).
    eauto.
Qed.

Lemma moved_leaves_room_witness :
  ∃ res, moveMapIn2048Rule
           [[Some 2; Some 2]; [Some 4; Some 8]]%Z Right = Ok res.
Proof.
  assert (Hrect : rectangular [[Some 2; Some 2]; [Some 4; Some 8]]%Z 2 2)
    by (split; [reflexivity|repeat constructor]).
  apply (proj1 (moved_leaves_room _ 2 2 Right Hrect)); lia.
Defined.

(** * The states of a game *)

Section Game.
Implicit Types (map : list (list (option Z))) (R C : nat) (v : Z) (st : GameState).

Lemma tile_ok_2 : tile_ok 2.
Proof. exists 1. split; [lia|done]. Qed.

Lemma tile_ok_4 : tile_ok 4.
Proof. exists 2. split; [lia|done]. Qed.

Lemma tile_ok_spawned (small : bool) : tile_ok (if small then 2 else 4)%Z.
Proof. destruct small; [apply tile_ok_2|apply tile_ok_4]. Qed.

Lemma tile_ok_range v : tile_ok v → (2 ≤ v ≤ 128)%Z.
Proof.
  intros (k & Hk & ->).
  assert (Hcases : k = 1 ∨ k = 2 ∨ k = 3 ∨ k = 4 ∨ k = 5 ∨ k = 6 ∨ k = 7) by lia.
  destruct Hcases as [->|[->|[->|[->|[->|[->| ->]]]]]]; vm_compute; split; discriminate.
Qed.

Lemma tile_ok_double v : tile_ok v → (2 * v ≤ TARGET_TILE)%Z → tile_ok (2 * v)%Z.
Proof.
  intros (k & Hk & ->) Hle.
  assert (Hcases : k = 1 ∨ k = 2 ∨ k = 3 ∨ k = 4 ∨ k = 5 ∨ k = 6 ∨ k = 7) by lia.
  destruct Hcases as [->|[->|[->|[->|[->|[->| ->]]]]]].
  - exists 2. split; [lia|done].
  - exists 3. split; [lia|done].
  - exists 4. split; [lia|done].
  - exists 5. split; [lia|done].
  - exists 6. split; [lia|done].
  - exists 7. split; [lia|done].
  - vm_compute in Hle. by destruct Hle.
Qed.

(** [spawn] with a draw in range either finds the grid full or adds a tile. *)
Lemma spawn_ok map R C (pick : nat → nat) (small : bool) :
  rectangular map R C → (∀ n, 0 < n → pick n < n) →
  (empties map = [] ∧ spawn map pick small = Ok (map, false)) ∨
  (∃ map', spawn map pick small = Ok (map', true) ∧ rectangular map' R C ∧
           grid_tiles map' ≡ₚ (if small then 2 else 4)%Z :: grid_tiles map).
Proof.
  intros Hrect Hpick. destruct (empties map) as [|e es] eqn:He.
  - left. split; [done|]. unfold spawn. by rewrite He.
  - right.
    destruct (spawn_pick map pick small) as (i & j & row & _ & Hrow & Hcell & Hs).
    { apply Hpick. rewrite He. simpl. lia. }
    eexists. split; [done|]. split; [by apply set_cell_rectangular|].
    by apply (set_cell_tiles _ row).
Qed.

Lemma move_rect_tile_ok D R C map :
  rectangular map R C → Forall tile_ok (grid_tiles map) →
  Forall tile_ok (grid_tiles (result (move_rect D R C map))).
Proof.
  intros Hrect Hok. rewrite (move_rect_tiles D _ _ _ Hrect).
  apply emitted_keeps; [apply tile_ok_double|].
  by rewrite (grid_tiles_rot _ _ _ _ Hrect).
Qed.

Lemma move_rect_gained_nonneg D R C map :
  rectangular map R C → Forall tile_ok (grid_tiles map) →
  (0 ≤ gained (move_rect D R C map))%Z.
Proof.
  intros Hrect Hok. rewrite move_rect_gained. apply emitted_gain_nonneg.
  rewrite (grid_tiles_rot _ _ _ _ Hrect). eapply Forall_impl; [done|].
  intros v Hv. apply tile_ok_range in Hv. lia.
Qed.
End Game.

(** X11: the key handler keeps the state of a game well formed.  From a state
    whose grid is 4 by 4, whose tiles are powers of two from 2 to 128, whose
    score is not negative and whose [finished] flag tells whether a tile
    reached [TARGET_TILE], every key gives such a state again, without an
    error; the score does not go down; and a finished game or a key that is no
    arrow key leaves the state as it is. *)
Theorem handleKeyDown_keeps_game (prev : GameState) (key : string)
    (pick : nat → nat) (small : bool) :
  game_ok prev → (∀ n, 0 < n → pick n < n) →
  ∃ next, handleKeyDown prev key pick small = Ok next ∧
          game_ok next ∧
          (gs_score prev ≤ gs_score next)%Z ∧
          (gs_finished prev = true → next = prev) ∧
          (keyToDirection key = None → next = prev).
Proof.
  intros Hok Hpick. pose proof Hok as (Hrect & Htiles & Hscore & Hfin).
  unfold handleKeyDown.
  destruct (gs_finished prev) eqn:Hf.
  { exists prev. split; [done|]. split; [done|]. split; [lia|]. split; done. }
  destruct (keyToDirection key) as [dir|] eqn:Hkey.
  2: { exists prev. split; [done|]. split; [done|]. split; [lia|]. split; done. }
  rewrite (move_total _ ROWS COLS dir Hrect) by (unfold ROWS, COLS; lia).
  rewrite outcome_bind_ok.
  destruct (isMoved (move_rect dir ROWS COLS (gs_map prev))) eqn:Hm; simpl negb; cbv iota.
  2: { exists prev. split; [done|]. split; [done|]. split; [lia|]. split; done. }
  cbv zeta. rewrite list_fmap_id.
  pose proof (move_rect_rectangular dir _ _ _ Hrect) as Hrect'.
  pose proof (move_rect_tile_ok dir _ _ _ Hrect Htiles) as Htiles'.
  pose proof (move_rect_gained_nonneg dir _ _ _ Hrect Htiles) as Hgain.
  destruct (spawn_ok _ _ _ pick small Hrect' Hpick)
    as [[_ ->]|(map' & -> & Hrect'' & Hperm)];
    rewrite outcome_bind_ok; cbv zeta; cbn [fst];
    (eexists; split; [reflexivity|];
     split; [|split; [cbn [gs_score]; lia|split; intros; done]];
     unfold game_ok; cbn [gs_map gs_score gs_finished];
     split; [done|]; split; [|split; [lia|reflexivity]]).
  - done.
  - rewrite Hperm. constructor; [apply tile_ok_spawned|done].
Qed.

Lemma handleKeyDown_keeps_game_witness :
  ∃ next,
    handleKeyDown
      (mkGameState [[Some 2; None; None; None]; [None; None; None; None];
                    [None; None; Some 4; None]; [None; None; None; None]]%Z 0 false)
      "ArrowLeft" (fun n => 0) true = Ok next ∧
    game_ok next ∧
    (0 ≤ gs_score next)%Z ∧
    (false = true → next =
       mkGameState [[Some 2; None; None; None]; [None; None; None; None];
                    [None; None; Some 4; None]; [None; None; None; None]]%Z 0 false) ∧
    (keyToDirection "ArrowLeft" = None → next =
       mkGameState [[Some 2; None; None; None]; [None; None; None; None];
                    [None; None; Some 4; None]; [None; None; None; None]]%Z 0 false).
Proof.
  apply (handleKeyDown_keeps_game
    (mkGameState [[Some 2; None; None; None]; [None; None; None; None];
                  [None; None; Some 4; None]; [None; None; None; None]]%Z 0 false)
    "ArrowLeft" (fun n => 0) true).
  - split; [split; [reflexivity|repeat constructor]|].
    split; [|split; [simpl; lia|reflexivity]].
    repeat constructor; [apply tile_ok_2|apply tile_ok_4].
  - intros n Hn. lia.
Defined.

(** X12: a new game starts from a well formed state with exactly two tiles,
    each 2 or 4, the score 0 and the [finished] flag not set, whatever is
    drawn. *)
Theorem newGame_starts_game (pick1 pick2 : nat → nat) (small1 small2 : bool) :
  (∀ n, 0 < n → pick1 n < n) → (∀ n, 0 < n → pick2 n < n) →
  ∃ st, newGame pick1 small1 pick2 small2 = Ok st ∧
        game_ok st ∧
        gs_score st = 0%Z ∧
        gs_finished st = false ∧
        grid_tiles (gs_map st) ≡ₚ
          [(if small2 then 2 else 4)%Z; (if small1 then 2 else 4)%Z].
Proof.
  intros Hpick1 Hpick2. unfold newGame. cbv zeta.
  assert (Hrect0 : rectangular (emptyMap ROWS COLS) ROWS COLS) by apply rectangular_tab.
  assert (Htiles0 : grid_tiles (emptyMap ROWS COLS) = []) by reflexivity.
  destruct (spawn_ok _ _ _ pick1 small1 Hrect0 Hpick1)
    as [[He _]|(map1 & -> & Hrect1 & Hperm1)].
  { pose proof (empties_count _ _ _ Hrect0) as Hcount.
    rewrite He, Htiles0 in Hcount. by vm_compute in Hcount. }
  rewrite outcome_bind_ok. simpl fst. rewrite Htiles0 in Hperm1.
  destruct (spawn_ok _ _ _ pick2 small2 Hrect1 Hpick2)
    as [[He _]|(map2 & -> & Hrect2 & Hperm2)].
  { pose proof (empties_count _ _ _ Hrect1) as Hcount.
    rewrite He, (Permutation_length Hperm1) in Hcount. by vm_compute in Hcount. }
  rewrite outcome_bind_ok. simpl fst. rewrite Hperm1 in Hperm2.
  eexists. split; [done|]. split; [|done].
  split; [done|]. split; [|split; [simpl; lia|]].
  - simpl. rewrite Hperm2. repeat constructor; apply tile_ok_spawned.
  - simpl. symmetry. apply not_true_is_false. intros Hreached.
    apply reached_tiles in Hreached as (v & Hv & Hle).
    rewrite Hperm2 in Hv. unfold TARGET_TILE in Hle.
    apply elem_of_cons in Hv as [->|Hv]; [destruct small2; lia|].
    apply list_elem_of_singleton in Hv as ->. destruct small1; lia.
Qed.

Lemma newGame_starts_game_witness :
  ∃ st, newGame (fun n => 0) true (fun n => n - 1) false = Ok st ∧
        game_ok st ∧
        gs_score st = 0%Z ∧
        gs_finished st = false ∧
        grid_tiles (gs_map st) ≡ₚ [4%Z; 2%Z].
Proof.
  apply (newGame_starts_game (fun n => 0) (fun n => n - 1) true false).
  - intros n Hn. lia.
  - intros n Hn. lia.
Defined.

(** * An accepted key, and a second move after a move without merges *)

Section Stable.
Implicit Types (map : list (list (option Z))) (row : list (option Z)) (R C : nat) (t : Z).

Lemma spec_row_tiles t row :
  Forall (fun e => is_merged e = false) (spec_scan t None (tiles row)) →
  tiles (spec_row t row) = tiles row.
Proof.
  intros Hno. unfold spec_row. rewrite tiles_pad.
  by rewrite (spec_scan_no_merge t None).
Qed.

Lemma spec_row_stable t row :
  Forall (fun e => is_merged e = false) (spec_scan t None (tiles row)) →
  spec_row t (spec_row t row) = spec_row t row.
Proof.
  intros Hno. unfold spec_row at 1.
  by rewrite spec_row_length, (spec_row_tiles _ _ Hno).
Qed.

Lemma emitted_stable t map :
  Forall (fun e => is_merged e = false) (emitted t map) →
  spec_row t <$> (spec_row t <$> map) = spec_row t <$> map ∧
  emitted t (spec_row t <$> map) = emitted t map.
Proof.
  unfold emitted. induction map as [|row map IH]; csimpl; [done|].
  intros [Hrow Hmap]%Forall_app. destruct (IH Hmap) as [-> ->].
  by rewrite spec_row_stable, spec_row_tiles.
Qed.
End Stable.

(** X13: what an arrow key does to a game that is not finished, whose tiles
    are positive and whose score is not negative and stays within [2 ^ 53]
    when [gained] is added.  If the move in the direction of the key does not
    change the grid, the state stays as it is.  If it does, the grid of the new
    state is the moved grid with exactly one cell changed: the drawn cell of
    the list of empty cells, which was empty, holds the tile 2 or 4, and every
    other cell and the dimensions are those of the moved grid; the score grows
    by [gained]; and [finished] tells whether a tile reached [TARGET_TILE]. *)
Theorem handleKeyDown_accepts (prev : GameState) (key : string) (pick : nat → nat)
    (small : bool) (R C : nat) (dir : Direction) (m : Move) :
  rectangular (gs_map prev) R C →
  Forall (fun v => 0 < v)%Z (grid_tiles (gs_map prev)) →
  (0 ≤ gs_score prev)%Z →
  (gs_score prev + gained m ≤ 2 ^ 53)%Z →
  (∀ n, 0 < n → pick n < n) →
  gs_finished prev = false →
  keyToDirection key = Some dir →
  moveMapIn2048Rule (gs_map prev) dir = Ok m →
  (isMoved m = false → handleKeyDown prev key pick small = Ok prev) ∧
  (isMoved m = true →
     ∃ next i j, handleKeyDown prev key pick small = Ok next ∧
       empties (result m) !! pick (length (empties (result m))) = Some (i, j) ∧
       get (result m) i j = None ∧
       get (gs_map next) i j = Some (if small then 2 else 4)%Z ∧
       (∀ i' j', (i', j') ≠ (i, j) → get (gs_map next) i' j' = get (result m) i' j') ∧
       rectangular (result m) R C ∧
       rectangular (gs_map next) R C ∧
       grid_tiles (gs_map next) ≡ₚ (if small then 2 else 4)%Z :: grid_tiles (result m) ∧
       gs_score next = (gs_score prev + gained m)%Z ∧
       (gs_score prev ≤ gs_score next ≤ 2 ^ 53)%Z ∧
       gs_finished next = reached (gs_map next) TARGET_TILE).
Proof.
  intros Hrect Hpos Hscore Hbound Hpick Hf Hkey Hm. unfold handleKeyDown.
  rewrite Hf, Hkey, Hm, outcome_bind_ok.
  apply (move_ok_iff _ R C) in Hm as (_ & _ & ->); [|done]. split.
  - intros ->. done.
  - intros Hmoved. rewrite Hmoved. simpl negb. cbv iota zeta. rewrite list_fmap_id.
    pose proof (move_rect_rectangular dir _ _ _ Hrect) as Hrect'.
    pose proof (move_rect_room dir _ _ _ Hrect Hmoved) as Hroom.
    assert (Hgain : (0 ≤ gained (move_rect dir R C (gs_map prev)))%Z).
    { rewrite move_rect_gained. apply emitted_gain_nonneg.
      rewrite (grid_tiles_rot _ _ _ _ Hrect). eapply Forall_impl; [done|].
      simpl. lia. }
    destruct (spawn_pick _ pick small (Hpick _ Hroom))
      as (i & j & row & Hij & Hrow & Hcell & ->).
    pose proof (lookup_lt_Some _ _ _ Hcell) as Hj.
    rewrite outcome_bind_ok. cbn [fst].
    eexists _, i, j. split; [reflexivity|]. cbn [gs_map gs_score gs_finished].
    split; [done|]. split; [unfold get; by rewrite Hrow, Hcell|].
    split; [rewrite (set_cell_get _ row) by done; by rewrite decide_True|].
    split.
    { intros i' j' Hne. rewrite (set_cell_get _ row) by done.
      rewrite decide_False; [done|]. intros [-> ->]. done. }
    split; [done|]. split; [by apply set_cell_rectangular|].
    split; [by apply (set_cell_tiles _ row)|].
    split; [done|]. split; [lia|done].
Qed.

Lemma handleKeyDown_accepts_witness :
  ∃ next i j,
    handleKeyDown (mkGameState [[Some 2; Some 2]; [None; Some 4]]%Z 8 false)
      "ArrowRight" (fun n => 0) false = Ok next ∧
    empties [[None; Some 4]; [None; Some 4]]%Z !! 0 = Some (i, j) ∧
    get [[None; Some 4]; [None; Some 4]]%Z i j = None ∧
    get (gs_map next) i j = Some 4%Z ∧
    (∀ i' j', (i', j') ≠ (i, j) →
       get (gs_map next) i' j' = get [[None; Some 4]; [None; Some 4]]%Z i' j') ∧
    rectangular [[None; Some 4]; [None; Some 4]]%Z 2 2 ∧
    rectangular (gs_map next) 2 2 ∧
    grid_tiles (gs_map next) ≡ₚ 4%Z :: grid_tiles [[None; Some 4]; [None; Some 4]]%Z ∧
    gs_score next = (8 + 4)%Z ∧
    (8 ≤ gs_score next ≤ 2 ^ 53)%Z ∧
    gs_finished next = reached (gs_map next) TARGET_TILE.
Proof.
  assert (Hrect : rectangular [[Some 2; Some 2]; [None; Some 4]]%Z 2 2)
    by (split; [reflexivity|repeat constructor]).
  assert (Hpos : Forall (fun v => 0 < v)%Z
                   (grid_tiles [[Some 2; Some 2]; [None; Some 4]]%Z))
    by (repeat constructor).
  assert (Hscore : (0 ≤ 8)%Z) by lia.
  assert (Hbound : (8 + 4 ≤ 2 ^ 53)%Z) by (vm_compute; discriminate).
  apply (proj2 (handleKeyDown_accepts
    (mkGameState [[Some 2; Some 2]; [None; Some 4]]%Z 8 false)
    "ArrowRight" (fun n => 0) false 2 2 Right
    (mkMove [[None; Some 4]; [None; Some 4]]%Z true 4)
    Hrect Hpos Hscore Hbound (fun n Hn => Hn) eq_refl eq_refl eq_refl)).
  reflexivity.
Defined.

(** X14: after a move that merged nothing, the same move again is blocked:
    when all tiles are positive and a move returns [gained] 0, moving the
    returned grid in the same direction returns that grid, not moved and with
    no gain. *)
Theorem blocked_after_no_merge (G : list (list (option Z))) (R C : nat)
    (D : Direction) (res : Move) :
  rectangular G R C →
  Forall (fun v => 0 < v)%Z (grid_tiles G) →
  moveMapIn2048Rule G D = Ok res →
  gained res = 0%Z →
  moveMapIn2048Rule (result res) D = Ok (mkMove (result res) false 0).
Proof.
  intros Hrect Hpos Hres Hzero.
  apply (move_ok_iff _ R C) in Hres as (HR & HR' & ->); [|done].
  pose proof (move_rect_rectangular D _ _ _ Hrect) as Hrect1.
  pose proof (rot_rectangular (rotateMapDeg D) _ _ _ Hrect) as HrectX.
  pose proof (moveLeft_rectangular _ _ _ HrectX) as HrectM.
  rewrite moveLeft_result in HrectM.
  assert (Hno : Forall (fun e => is_merged e = false)
                  (emitted TARGET_TILE (rot (rotateMapDeg D) R C G))).
  { rewrite move_rect_gained in Hzero. apply emitted_gain_zero; [|done].
    by rewrite (grid_tiles_rot _ _ _ _ Hrect). }
  destruct (emitted_stable _ _ Hno) as [Hstable Hemitted].
  assert (Hback : rot (rotateMapDeg D) R C (result (move_rect D R C G))
                  = spec_row TARGET_TILE <$> rot (rotateMapDeg D) R C G).
  { rewrite move_rect_result. by apply rot_inverse_back. }
  apply (move_ok_iff _ R C); [done|]. split; [done|]. split; [done|].
  assert (Hm : isMoved (move_rect D R C (result (move_rect D R C G))) = false).
  { unfold move_rect at 1. cbv zeta. cbn [isMoved].
    apply moveLeft_isMoved_false. by rewrite moveLeft_result, Hback. }
  assert (Hsame : result (move_rect D R C (result (move_rect D R C G)))
                  = result (move_rect D R C G)) by by apply move_rect_unchanged.
  assert (Hg : gained (move_rect D R C (result (move_rect D R C G))) = 0%Z).
  { rewrite move_rect_gained, Hback, Hemitted, <-move_rect_gained. done. }
  destruct (move_rect D R C (result (move_rect D R C G))). simpl in *. by subst.
Qed.

Lemma blocked_after_no_merge_witness :
  moveMapIn2048Rule [[Some 2; Some 4; None]; [Some 8; None; None]]%Z Left
  = Ok (mkMove [[Some 2; Some 4; None]; [Some 8; None; None]]%Z false 0).
Proof.
  apply (blocked_after_no_merge [[None; Some 2; Some 4]; [Some 8; None; None]]%Z 2 3 Left
           (mkMove [[Some 2; Some 4; None]; [Some 8; None; None]]%Z true 0)).
  - split; [reflexivity|repeat constructor].
  - repeat constructor.
  - reflexivity.
  - reflexivity.
Defined.

(** * The gain of a move *)

Section Gain.
Implicit Types (es : list Emitted) (t : Z).

Lemma merged_values_bound t es :
  (∀ v, Merged v ∈ es → (2 * v ≤ t)%Z) →
  (sumZ (merged_values es) ≤ t * Z.of_nat (length (merged_values es)))%Z.
Proof.
  unfold merged_values, sumZ. induction es as [|[v|v] es IH]; intros Hle.
  - simpl. lia.
  - rewrite filter_cons_False by done. apply IH. intros w Hw. apply Hle. by right.
  - rewrite filter_cons_True by done. csimpl.
    assert (2 * v ≤ t)%Z by (apply Hle; by left).
    assert (IH' := IH (fun w Hw => Hle w (list_elem_of_further _ _ _ Hw))).
    lia.
Qed.

Lemma merged_values_length es : length (merged_values es) ≤ length es.
Proof. unfold merged_values. rewrite length_fmap. apply length_filter. Qed.
End Gain.

(** C6: on a grid of tiles, which are positive integers (section 3 of the
    specification), the [gained] value of a move is the sum of the values of
    the tiles created by a merge in the rows of the rotated grid, each merge of
    two tiles of value [v] giving a tile of value [2 * v] under the ceiling;
    it is even and not negative, and at most 64 for each tile of the grid.
    The move returns on every grid that has a row and a column. *)
Theorem gained_is_merge_sum (G : list (list (option Z))) (R C : nat) (D : Direction) :
  rectangular G R C →
  Forall (fun v => 0 < v)%Z (grid_tiles G) →
  (0 < R → 0 < C → ∃ res, moveMapIn2048Rule G D = Ok res) ∧
  (∀ res, moveMapIn2048Rule G D = Ok res →
     ∃ rotated,
       rotateMap G (rotateMapDeg D) = Ok rotated ∧
       rotateMap (spec_row TARGET_TILE <$> rotated) (revertMapDeg D) = Ok (result res) ∧
       gained res = sumZ (merged_values (emitted TARGET_TILE rotated)) ∧
       (∀ v, Merged v ∈ emitted TARGET_TILE rotated →
          value (Merged v) = (2 * v)%Z ∧ (2 * v ≤ TARGET_TILE)%Z ∧ v ∈ grid_tiles G) ∧
       (∃ k, gained res = (2 * k)%Z) ∧
       (0 ≤ gained res ≤ 64 * Z.of_nat (length (grid_tiles G)))%Z).
Proof.
  intros Hrect Hpos. split.
  - intros HR HC. eexists. by apply (move_total _ R C).
  - intros res Hres. apply (move_ok_iff _ R C) in Hres as (HR & HR' & ->); [|done].
    pose proof (rot_rectangular (rotateMapDeg D) _ _ _ Hrect) as Hrot.
    pose proof (grid_tiles_rot (rotateMapDeg D) _ _ _ Hrect) as Htiles.
    exists (rot (rotateMapDeg D) R C G).
    split; [|split; [|split; [|split; [|split]]]].
    + by apply rotateMap_rect.
    + rewrite move_rect_result. apply rotateMap_rect; [|done].
      rewrite <-moveLeft_result. by apply moveLeft_rectangular.
    + by rewrite move_rect_gained, sum_gain_merged.
    + intros v Hv. apply emitted_merged in Hv as [Hle Hin].
      split; [done|]. split; [done|]. by rewrite <-Htiles.
    + rewrite move_rect_gained. apply emitted_gain_even.
    + rewrite move_rect_gained. split.
      * apply emitted_gain_nonneg. rewrite Htiles.
        eapply Forall_impl; [done|]. simpl. lia.
      * rewrite sum_gain_merged.
        set (es := emitted TARGET_TILE (rot (rotateMapDeg D) R C G)).
        pose proof (merged_values_bound TARGET_TILE es) as Hbound.
        pose proof (merged_values_length es) as Hlen.
        pose proof (emitted_merges TARGET_TILE (rot (rotateMapDeg D) R C G)) as Hcount.
        fold es in Hcount. rewrite (Permutation_length Htiles) in Hcount.
        assert (Hb : (sumZ (merged_values es)
                      ≤ TARGET_TILE * Z.of_nat (length (merged_values es)))%Z).
        { apply Hbound. intros v Hv. by apply emitted_merged in Hv as [? _]. }
        unfold TARGET_TILE in Hb. lia.
Qed.

Lemma gained_is_merge_sum_witness :
  ∃ res, moveMapIn2048Rule
           [[Some 2; Some 2; Some 4]; [None; Some 8; Some 8]]%Z Right = Ok res.
Proof.
  assert (Hrect : rectangular [[Some 2; Some 2; Some 4]; [None; Some 8; Some 8]]%Z 2 3)
    by (split; [reflexivity|repeat constructor]).
  assert (Hpos : Forall (fun v => 0 < v)%Z
                   (grid_tiles [[Some 2; Some 2; Some 4]; [None; Some 8; Some 8]]%Z))
    by (repeat constructor).
  apply (proj1 (gained_is_merge_sum _ 2 3 Right Hrect Hpos)); lia.
Defined.
